(** * Forum-corpus preparation pipeline: sharder, reshaper, normalizer

    A shallow embedding of the three scripts

      - [convert_to_jsonl_shards.py]  (the Sharder),
      - [wide_to_long_format.py]      (the Reshaper),
      - [normalize_and_clean.py]      (the Normalizer),

    followed by the properties of the specification, each stated over the
    embedded functions.

    Conventions of the embedding.
      - A Python [str] whose characters are inspected (post text, language
        labels, identifiers) is a list of Unicode code points, [pystr].
      - A dict key is only ever compared for equality, so field and column
        names are Rocq strings; a dict is a [gmap].
      - A JSON cell is a [scalar]; spec section 3 has rows map column names to
        scalars.
      - A line of a shard file is the record it decodes to; a line that
        [ujson.loads] rejects aborts the scripts and is outside the model. *)

From Stdlib Require Import ZArith NArith String Ascii DecimalString DecimalNat.
From stdpp Require Import base option list gmap strings.

Local Open Scope N_scope.

(** ** Python strings *)

Module PyStr.

(** A Python [str]: a sequence of code points. *)
Abbreviation pystr := (list N).

(** A literal of the source, all of whose characters are ASCII. *)
Definition lit (s : string) : pystr :=
  List.map N_of_ascii (list_ascii_of_string s).

(** [str.isspace] on one character, which is also what [\s] matches in a
    [str] pattern: CPython's [_PyUnicode_IsWhitespace]. *)
Definition isspace (c : N) : bool :=
  ((9 <=? c) && (c <=? 13)) || ((28 <=? c) && (c <=? 32))
  || (c =? 133) || (c =? 160) || (c =? 5760)
  || ((8192 <=? c) && (c <=? 8202))
  || (c =? 8232) || (c =? 8233) || (c =? 8239) || (c =? 8287)
  || (c =? 12288).

Definition SP : N := 32.      (* U+0020 *)
Definition NL : N := 10.      (* U+000A *)
Definition ZWSP : N := 8203.  (* U+200B, zero-width space *)
Definition NBSP : N := 160.   (* U+00A0, no-break space *)

(** [s.replace(old, new)] for one-character [old] and [new]. *)
Definition replace (old new : N) (s : pystr) : pystr :=
  List.map (fun c => if c =? old then new else c) s.

Fixpoint lstrip (s : pystr) : pystr :=
  match s with
  | [] => []
  | c :: t => if isspace c then lstrip t else s
  end.

Fixpoint rstrip (s : pystr) : pystr :=
  match s with
  | [] => []
  | c :: t =>
      match rstrip t with
      | [] => if isspace c then [] else [c]
      | t' => c :: t'
      end
  end.

(** [s.strip()] *)
Definition strip (s : pystr) : pystr := rstrip (lstrip s).

(** [sep.join(parts)] for a one-character separator. *)
Fixpoint join (sep : N) (parts : list pystr) : pystr :=
  match parts with
  | [] => []
  | [p] => p
  | p :: ps => p ++ sep :: join sep ps
  end.

(** [s.split(sep)] for a one-character separator. *)
Fixpoint split_on (sep : N) (s : pystr) : list pystr :=
  match s with
  | [] => [[]]
  | c :: t =>
      if c =? sep then [] :: split_on sep t
      else match split_on sep t with
           | [] => [[c]]
           | p :: ps => (c :: p) :: ps
           end
  end.

(** [s.startswith(p)], returning what follows the prefix. *)
Fixpoint strip_prefix (p s : pystr) : option pystr :=
  match p, s with
  | [], _ => Some s
  | a :: p', b :: s' => if a =? b then strip_prefix p' s' else None
  | _ :: _, [] => None
  end.

(** ASCII case folding of one character: what [str.lower] does below
    U+0080. *)
Definition ascii_lower_char (c : N) : N :=
  if (65 <=? c) && (c <=? 90) then c + 32 else c.

(** [str.lower] is the interpreter's Unicode lowercasing; the scripts only
    rely on what it does to ASCII text and on its leaving surrounding
    whitespace alone. *)
Class Lowercase := {
  lower : pystr -> pystr;
  lower_ascii : forall s,
    Forall (fun c => c < 128) s -> lower s = List.map ascii_lower_char s;
  lower_strip : forall s, strip (lower s) = lower (strip s)
}.

End PyStr.
Export PyStr.

(** ** The Normalizer: text cleaning ([normalize_and_clean.py]) *)

Module Clean.

(** [WS_RE.sub(" ", s)] with [WS_RE = \s+]: every maximal run of whitespace
    becomes one space.  [in_run] tells that the previous character belonged
    to the run being replaced. *)
Fixpoint ws_sub_from (in_run : bool) (s : pystr) : pystr :=
  match s with
  | [] => []
  | c :: t =>
      if isspace c
      then (if in_run then ws_sub_from true t else SP :: ws_sub_from true t)
      else c :: ws_sub_from false t
  end.

Definition WS_RE_sub (s : pystr) : pystr := ws_sub_from false s.

Definition URL_TOKEN : pystr := lit "<URL>".

(** Where [https?://] ends when the pattern matches at the head of [s]. *)
Definition after_scheme (s : pystr) : option pystr :=
  match strip_prefix (lit "https://") s with
  | Some r => Some r
  | None => strip_prefix (lit "http://") s
  end.

(** [URL_RE.match(s)] with [URL_RE = https?://\S+]: the scheme and at least
    one character that is not whitespace. *)
Definition url_at (s : pystr) : bool :=
  match after_scheme s with
  | Some (c :: _) => negb (isspace c)
  | _ => false
  end.

(** [URL_RE.sub("<URL>", s)]: scanning from the left, the first position
    where the pattern matches starts a match, and the greedy [\S+] carries
    it to the next whitespace character or to the end.  [in_url] tells that
    the scan is inside a match whose token has been written already. *)
Fixpoint url_sub_from (in_url : bool) (s : pystr) : pystr :=
  match s with
  | [] => []
  | c :: t =>
      if in_url
      then (if isspace c then c :: url_sub_from false t else url_sub_from true t)
      else if url_at s then URL_TOKEN ++ url_sub_from true t
      else c :: url_sub_from false t
  end.

Definition URL_RE_sub (s : pystr) : pystr := url_sub_from false s.

(** [normalize_text(txt)] *)
Definition normalize_text (txt : pystr) : pystr :=
  match txt with
  | [] => []
  | _ =>
      let txt := replace NBSP SP (replace ZWSP SP txt) in
      let txt := strip txt in
      let txt := WS_RE_sub txt in
      URL_RE_sub txt
  end.

(** *** The fallback sentence splitter *)

(** A character of the class [[.!?]]. *)
Definition is_terminal (c : N) : bool := (c =? 46) || (c =? 33) || (c =? 63).

Definition cons_head (c : N) (pieces : list pystr) : list pystr :=
  match pieces with
  | [] => [[c]]
  | p :: ps => (c :: p) :: ps
  end.

(** [SENT_RE.split(s)] with [SENT_RE = (?<=[.!?])\s+]: a separator starts at
    a whitespace character that follows a terminal mark and runs over the
    whitespace after it.  [after_terminal] tells that the previous character
    is a terminal mark, [in_sep] that it belongs to a separator.  The head of
    the result is what remains of the piece being read. *)
Fixpoint sent_split_from (after_terminal in_sep : bool) (s : pystr)
  : list pystr :=
  match s with
  | [] => [[]]
  | c :: t =>
      if isspace c && in_sep then sent_split_from false true t
      else if isspace c && after_terminal then [] :: sent_split_from false true t
      else cons_head c (sent_split_from (is_terminal c) false t)
  end.

Definition SENT_RE_split (s : pystr) : list pystr :=
  sent_split_from false false s.

(** The sentences the fallback of [make_splitter] joins:
    [[s.strip() for s in SENT_RE.split(t) if s.strip()]]. *)
Definition fallback_sentences (t : pystr) : list pystr :=
  List.map strip
    (List.filter (fun s => negb (bool_decide (strip s = []))) (SENT_RE_split t)).

(** [text_to_sentences], when [syntok] cannot be imported. *)
Definition text_to_sentences (t : pystr) : pystr :=
  join NL (fallback_sentences t).

End Clean.
Export Clean.

(** ** Values and records *)

Module Values.

(** A cell of a row, as [ujson.loads] returns it.  A float is carried by its
    [repr] text, which is what [str] returns for it; the only floats that
    are false are the two zeros. *)
Inductive scalar :=
| SNone
| SBool (b : bool)
| SInt (z : Z)
| SFloat (repr : pystr)
| SStr (s : pystr).

(** Python truth value, as tested by [not v] and [v or w]. *)
Definition truthy (v : scalar) : bool :=
  match v with
  | SNone => false
  | SBool b => b
  | SInt z => negb (z =? 0)%Z
  | SFloat r =>
      negb (bool_decide (r = lit "0.0") || bool_decide (r = lit "-0.0"))
  | SStr s => negb (bool_decide (s = []))
  end.

(** [str(v)] *)
Definition str (v : scalar) : pystr :=
  match v with
  | SNone => lit "None"
  | SBool true => lit "True"
  | SBool false => lit "False"
  | SInt z => lit (NilZero.string_of_int (Z.to_int z))
  | SFloat r => r
  | SStr s => s
  end.

(** A decoded JSON object with scalar cells. *)
Abbreviation record := (gmap string scalar).

(** [rec.get(key)]: [None] when the key is absent. *)
Definition get (rec : record) (key : string) : scalar :=
  default SNone (rec !! key).

End Values.
Export Values.

(** ** The Reshaper ([wide_to_long_format.py]) *)

Module Reshaper.

(** The two values [side] takes in the conversion loop. *)
Inductive side := question | response.

Definition side_name (sd : side) : string :=
  match sd with question => "question" | response => "response" end.

(** [config/columns.json], decoded: for each side the column holding each
    of its fields, and the column of the thread identifier.  A configuration
    that lacks one of these keys makes the script raise [KeyError]; the type
    leaves it out. *)
Record side_columns := {
  col_content : string;
  col_id : string;
  col_created_at : string;
  col_user_id : string;
  col_language : string
}.

Record column_map := {
  m_question : side_columns;
  m_response : side_columns;
  m_thread_id : string
}.

(** [m[side]] *)
Definition m_side (m : column_map) (sd : side) : side_columns :=
  match sd with question => m_question m | response => m_response m end.

(** [not v or str(v).strip() == ""] *)
Definition is_blank (v : scalar) : bool :=
  negb (truthy v) || bool_decide (strip (str v) = []).

(** [build_post(rec, side)]; [None] is Python's [None]. *)
Definition build_post (m : column_map) (rec : record) (sd : side)
  : option record :=
  let s := m_side m sd in
  let txt := get rec (col_content s) in
  if is_blank txt then None else
  let rid := get rec (col_id s) in
  if is_blank rid then None else
  Some {[ "id" := SStr ((match sd with
                         | question => lit "q:"
                         | response => lit "r:"
                         end) ++ str rid);
          "thread_id" := get rec (m_thread_id m);
          "created_at" := get rec (col_created_at s);
          "author" := get rec (col_user_id s);
          "lang_hint" := get rec (col_language s);
          "text" := SStr (str txt);
          "role" := SStr (lit (side_name sd)) ]}.

(** The body of [for line in fin]: the posts one wide record contributes,
    question side first. *)
Definition posts_of_record (m : column_map) (rec : record) : list record :=
  omap (build_post m rec) [question; response].

(** One pass of [for src in sorted(IN.glob("*.jsonl"))]: the lines written
    to the destination shard. *)
Definition reshape_shard (m : column_map) (lines : list record) : list record :=
  flat_map (posts_of_record m) lines.

(** What a run leaves behind: the destination shards (named as their
    sources, which are given in sorted order) and the two counters. *)
Record reshaped := {
  shards_posts : list (string * list record);
  count_in : nat;
  count_out : nat
}.

Definition reshape_run (m : column_map) (shards : list (string * list record))
  : reshaped :=
  foldl (fun acc src =>
           let dst := reshape_shard m src.2 in
           {| shards_posts := shards_posts acc ++ [(src.1, dst)];
              count_in := count_in acc + length src.2;
              count_out := count_out acc + length dst |})
        {| shards_posts := []; count_in := 0; count_out := 0 |}
        shards.

(** Every post a run writes, in the order written. *)
Definition emitted (m : column_map) (shards : list (string * list record))
  : list record :=
  concat (List.map snd (shards_posts (reshape_run m shards))).

End Reshaper.
Export Reshaper.

(** ** The Normalizer: records and shards ([normalize_and_clean.py]) *)

Module Normalizer.

Section WithLowercase.
Context `{Lowercase}.

(** [load_label_map].  [raw] is [raw.items()]: the items of the dict
    [json.load] returns, in the order of the dict, so its keys are distinct
    (a key the file repeats stands once, where it first stood, with its last
    value).  Every key is trimmed and lowercased; an item replaces an earlier
    one whose key normalizes to the same text. *)
Definition load_label_map (raw : list (pystr * scalar)) : gmap pystr scalar :=
  foldl (fun acc kv => <[lower (strip kv.1) := kv.2]> acc) ∅ raw.

(** [map_label_to_nllb(label, mapping)]; [SNone] is Python's [None]. *)
Definition map_label_to_nllb (label : scalar) (mapping : gmap pystr scalar)
  : scalar :=
  if negb (truthy label) then SNone
  else default SNone (mapping !! lower (strip (str label))).

(** The counters and the output file of [process_shard]. *)
Record shard_state := {
  fout : list record;
  kept : nat;
  skipped_empty : nat;
  skipped_unknown : nat
}.

(** The argument [r.get("text") or ""] of [normalize_text], which calls
    [replace] on it when it is true: any true value other than a [str]
    raises [AttributeError], here [None]. *)
Definition text_argument (r : record) : option pystr :=
  let v := get r "text" in
  if truthy v
  then match v with SStr s => Some s | _ => None end
  else Some [].

(** The body of [for line in fin] in [process_shard]; [None] when
    [normalize_text] raises.  The strings of a line are taken to be
    encodable, so that [fout.write] of a kept record succeeds: a record that
    holds a lone surrogate would make it raise [UnicodeEncodeError]. *)
Definition process_line (label_map : gmap pystr scalar) (keep_hint : bool)
    (st : shard_state) (r : record) : option shard_state :=
  t ← text_argument r;
  let txt := normalize_text t in
  if bool_decide (txt = []) then
    Some {| fout := fout st; kept := kept st;
            skipped_empty := skipped_empty st + 1;
            skipped_unknown := skipped_unknown st |}
  else
    let lang := map_label_to_nllb (get r "lang_hint") label_map in
    if negb (truthy lang) then
      Some {| fout := fout st; kept := kept st;
              skipped_empty := skipped_empty st;
              skipped_unknown := skipped_unknown st + 1 |}
    else
      let sents := text_to_sentences txt in
      let r := <["lang" := lang]> r in
      let r := <["text" := SStr txt]> r in
      let r := <["sents" := SStr sents]> r in
      let r := if keep_hint then r else delete "lang_hint" r in
      Some {| fout := fout st ++ [r]; kept := kept st + 1;
              skipped_empty := skipped_empty st;
              skipped_unknown := skipped_unknown st |}.

Fixpoint process_lines (label_map : gmap pystr scalar) (keep_hint : bool)
    (st : shard_state) (lines : list record) : option shard_state :=
  match lines with
  | [] => Some st
  | r :: rest =>
      st' ← process_line label_map keep_hint st r;
      process_lines label_map keep_hint st' rest
  end.

(** [process_shard]: the lines written and the counters returned, or [None]
    when a line raises. *)
Definition process_shard (lines : list record) (label_map : gmap pystr scalar)
    (keep_hint : bool) : option shard_state :=
  process_lines label_map keep_hint
    {| fout := []; kept := 0; skipped_empty := 0; skipped_unknown := 0 |}
    lines.

End WithLowercase.

End Normalizer.
Export Normalizer.

(** ** The Sharder ([convert_to_jsonl_shards.py]) *)

Module Sharder.

(** Modelled from the spec: the chunked reader of [pd.read_csv] is pandas'
    and not part of the sources; section 4.1 has it stream the source in
    batches of at most [chunksize] rows, only the final batch being shorter.
    [fuel] bounds the number of batches. *)
Fixpoint batches (fuel chunksize : nat) (rows : list record)
  : list (list record) :=
  match fuel, rows with
  | O, _ | _, [] => []
  | S fuel', _ :: _ =>
      take chunksize rows :: batches fuel' chunksize (drop chunksize rows)
  end.

(** Modelled from the spec: [pd.read_csv(SRC, chunksize=CHUNK)], the
    batches of a source that holds [rows], with fuel for all of them. *)
Definition read_csv (rows : list record) (chunksize : nat)
  : list (list record) :=
  batches (length rows) chunksize rows.

(** [f"{n:05d}"] *)
Definition pad5 (n : nat) : string :=
  let d := NilZero.string_of_uint (Nat.to_uint n) in
  (String.concat "" (List.repeat "0" (5 - String.length d)) ++ d)%string.

(** [f"shard_{shard_idx:05d}.jsonl"] *)
Definition shard_name (shard_idx : nat) : string :=
  ("shard_" ++ pad5 shard_idx ++ ".jsonl")%string.

(** [for df in reader]: one file per batch, one line per row, [shard_idx]
    counting the files. *)
Fixpoint write_shards (shard_idx : nat) (reader : list (list record))
  : list (string * list record) * nat :=
  match reader with
  | [] => ([], shard_idx)
  | df :: rest =>
      let recs := df in
      let out := shard_name shard_idx in
      let (files, n) := write_shards (S shard_idx) rest in
      ((out, recs) :: files, n)
  end.

(** The script, for a source holding [rows] and [CHUNK = chunk]. *)
Definition convert_to_jsonl_shards (rows : list record) (chunk : nat)
  : list (string * list record) * nat :=
  write_shards 0 (read_csv rows chunk).

End Sharder.
Export Sharder.

(** ** Predicates used by the properties *)

Module Shapes.

(** Text in which whitespace is normal: no whitespace at either end, every
    whitespace character is a single space between two other characters.
    [after_ws] tells that the previous position is the start of the text or
    a space; the empty text is not normal from the start. *)
Fixpoint ws_normal_from (after_ws : bool) (s : pystr) : bool :=
  match s with
  | [] => negb after_ws
  | c :: t =>
      if isspace c
      then negb after_ws && (c =? SP) && ws_normal_from true t
      else ws_normal_from false t
  end.

Definition ws_normal (s : pystr) : bool := ws_normal_from true s.

(** The last character, if any, is not whitespace. *)
Fixpoint ends_ok (s : pystr) : bool :=
  match s with
  | [] => true
  | c :: t => match t with [] => negb (isspace c) | _ => ends_ok t end
  end.

(** [s'] copies [s] up to a position where [s] has the [h] of a scheme and
    [s'] the [<] of a token. *)
Inductive same_to_token : pystr -> pystr -> Prop :=
| stt_nil : same_to_token [] []
| stt_cons c s s' : same_to_token s s' -> same_to_token (c :: s) (c :: s')
| stt_token s s' : same_to_token (104 :: s) (60 :: s').

(** Neither of the two characters [normalize_text] replaces. *)
Definition visible (c : N) : Prop := c <> ZWSP /\ c <> NBSP.

(** Whitespace normalization: trimming and collapsing. *)
Definition ws_normalize (s : pystr) : pystr := WS_RE_sub (strip s).


(** Exactly one of the three counters of [process_shard] went up, by one. *)
Definition counts_one_more (st st' : shard_state) : Prop :=
  (kept st' = kept st + 1 /\ skipped_empty st' = skipped_empty st /\
   skipped_unknown st' = skipped_unknown st)%nat \/
  (kept st' = kept st /\ skipped_empty st' = skipped_empty st + 1 /\
   skipped_unknown st' = skipped_unknown st)%nat \/
  (kept st' = kept st /\ skipped_empty st' = skipped_empty st /\
   skipped_unknown st' = skipped_unknown st + 1)%nat.

(** The fields [process_shard] assigns or removes. *)
Definition rewritten_fields : list string :=
  ["text"; "lang"; "sents"; "lang_hint"].

(** [r'] has every other field exactly as [r] has it, present or absent. *)
Definition same_other_fields (r r' : record) : Prop :=
  forall k, k ∉ rewritten_fields -> r' !! k = r !! k.

(** The wide records of a run, in the order read. *)
Definition wide_records (shards : list (string * list record)) : list record :=
  concat (List.map snd shards).

(** The identifier a wide record carries for a side, as text, when the
    record yields a post for that side. *)
Definition raw_id (m : column_map) (sd : side) (rec : record) : option pystr :=
  match build_post m rec sd with
  | Some _ => Some (str (get rec (col_id (m_side m sd))))
  | None => None
  end.

Definition raw_ids (m : column_map) (sd : side) (recs : list record)
  : list pystr :=
  omap (raw_id m sd) recs.

(** The [id] and the [role] of a post. *)
Definition post_id (p : record) : scalar := get p "id".
Definition post_role (p : record) : scalar := get p "role".

(** The prefix an identifier gets on each side. *)
Definition id_prefix (sd : side) : pystr :=
  match sd with question => lit "q:" | response => lit "r:" end.

(** A field of a side as section 4.2 words the test: absent, null, or
    empty or whitespace-only after string conversion. *)
Definition spec_blank (rec : record) (col : string) : Prop :=
  match rec !! col with
  | None | Some SNone => True
  | Some v => strip (str v) = []
  end.

(** [ceil(n / k)] *)
Definition ceil_div (n k : nat) : nat := ((n + k - 1) / k)%nat.

End Shapes.
Export Shapes.

(** ** Sample data *)

Module Samples.

(** The label map of scenario C, as the configuration file has it. *)
Definition luganda_map_raw : list (pystr * scalar) :=
  [(lit "luganda", SStr (lit "lug_Latn"))].

(** The post of scenario C and what it is normalized to. *)
Definition post_C : record :=
  {[ "text" := SStr (lit "Check https://x.co/a now  please");
     "lang_hint" := SStr (lit " Luganda ") ]}.

Definition post_C_normalized : record :=
  {[ "text" := SStr (lit "Check <URL> now please");
     "lang" := SStr (lit "lug_Latn");
     "sents" := SStr (lit "Check <URL> now please") ]}.

(** A post whose text is blank, and the post of scenario D, which has no
    [lang_hint]. *)
Definition post_blank : record :=
  {[ "id" := SStr (lit "q:7"); "text" := SStr (lit "  ");
     "lang_hint" := SStr (lit "Luganda") ]}.

Definition post_D : record :=
  {[ "id" := SStr (lit "r:8"); "text" := SStr (lit "Hello.") ]}.

(** The column map and the wide record of scenario B. *)
Definition columns_B : column_map :=
  {| m_question := {| col_content := "q_text"; col_id := "q_id";
                      col_created_at := "q_created"; col_user_id := "q_user";
                      col_language := "q_lang" |};
     m_response := {| col_content := "r_text"; col_id := "r_id";
                      col_created_at := "r_created"; col_user_id := "r_user";
                      col_language := "r_lang" |};
     m_thread_id := "thread" |}.

Definition wide_B : record :=
  {[ "q_text" := SStr (lit "Hello?"); "q_id" := SStr (lit "42");
     "r_text" := SStr []; "r_id" := SStr (lit "99");
     "thread" := SStr (lit "T1") ]}.

(** A second answer to the question of scenario B: the same question
    columns next to another response. *)
Definition wide_B_second_answer : record :=
  {[ "q_text" := SStr (lit "Hello?"); "q_id" := SStr (lit "42");
     "r_text" := SStr (lit "Hi."); "r_id" := SStr (lit "100");
     "thread" := SStr (lit "T1") ]}.

(** A wide record whose question identifier is the number zero. *)
Definition wide_zero_id : record :=
  {[ "q_text" := SStr (lit "Hello?"); "q_id" := SInt 0;
     "thread" := SStr (lit "T1") ]}.

End Samples.
Export Samples.

(** ** The Normalizer: the entry point ([main] of [normalize_and_clean.py]) *)

Module NormalizerMain.

(** The dict [totals]. *)
Record totals := {
  total_kept : nat;
  total_skipped_empty : nat;
  total_skipped_unknown_label : nat
}.

(** How a run ends: a line raised, the input directory held no shard (a
    warning is printed and [main] returns), or every shard was processed. *)
Inductive run :=
| Raised
| NoShards
| Finished (written : list (string * list record)) (tot : totals).

Section WithLowercase.
Context `{Lowercase}.

(** [for i, shard in enumerate(shards, 1)]: each shard is processed into the
    file of the same name under the output directory and its counters are
    added to [totals]; [None] when a shard raises. *)
Fixpoint main_loop (label_map : gmap pystr scalar) (keep_hint : bool)
    (written : list (string * list record)) (tot : totals)
    (shards : list (string * list record))
  : option (list (string * list record) * totals) :=
  match shards with
  | [] => Some (written, tot)
  | shard :: rest =>
      st ← process_shard shard.2 label_map keep_hint;
      main_loop label_map keep_hint
        (written ++ [(shard.1, fout st)])
        {| total_kept := total_kept tot + kept st;
           total_skipped_empty := total_skipped_empty tot + skipped_empty st;
           total_skipped_unknown_label :=
             total_skipped_unknown_label tot + skipped_unknown st |}
        rest
  end.

(** [main()], for the decoded label-map file [lang_map], the shards of the
    input directory in sorted order of file name, and the flag
    [--keep-hint]. *)
Definition main (lang_map : list (pystr * scalar))
    (shards : list (string * list record)) (keep_hint : bool) : run :=
  let label_map := load_label_map lang_map in
  match shards with
  | [] => NoShards
  | _ :: _ =>
      match main_loop label_map keep_hint []
              {| total_kept := 0; total_skipped_empty := 0;
                 total_skipped_unknown_label := 0 |} shards with
      | Some (written, tot) => Finished written tot
      | None => Raised
      end
  end.

End WithLowercase.

End NormalizerMain.
Export NormalizerMain.

(** ** Words *)

Module Words.

(** The words of a text: its maximal runs of characters that are not
    whitespace.  [in_word] tells that the previous character belongs to a
    word; the head of the result is then what remains of that word. *)
Fixpoint words_from (in_word : bool) (s : pystr) : list pystr :=
  match s with
  | [] => if in_word then [[]] else []
  | c :: t =>
      if isspace c
      then (if in_word then [] :: words_from false t else words_from false t)
      else match words_from true t with
           | w :: ws => (c :: w) :: ws
           | [] => [[c]]
           end
  end.

Definition words (s : pystr) : list pystr := words_from false s.

(** The last character of [s] is one of the marks [.], [!], [?]; for the
    empty text the answer is [after_terminal]. *)
Definition ends_in_terminal (after_terminal : bool) (s : pystr) : bool :=
  match last s with
  | Some c => is_terminal c
  | None => after_terminal
  end.

End Words.
Export Words.

(** ** The order of the shard names *)

Module ShardOrder.

(** [shard_name n], from the digits of [n] written units first. *)
Definition name_lu (d : Decimal.uint) : string :=
  let s := NilZero.string_of_uint (Decimal.rev d) in
  ("shard_" ++
   (String.concat "" (List.repeat "0" (5 - String.length s)) ++ s) ++
   ".jsonl")%string.

(** Each of the [fuel] names from [d] on is below the next one, in the order
    of strings (character by character, by code point). *)
Fixpoint ascending (fuel : nat) (d : Decimal.uint) : bool :=
  match fuel with
  | O => true
  | S fuel =>
      String.ltb (name_lu d) (name_lu (Decimal.Little.succ d)) &&
      ascending fuel (Decimal.Little.succ d)
  end.

End ShardOrder.
Export ShardOrder.

(** ** Tallies of the Normalizer *)

Module Tally.

(** The state of [process_shard] some lines later: what these lines wrote
    comes after what was written, what they counted is added. *)
Definition add_state (st d : shard_state) : shard_state :=
  {| fout := fout st ++ fout d;
     kept := kept st + kept d;
     skipped_empty := skipped_empty st + skipped_empty d;
     skipped_unknown := skipped_unknown st + skipped_unknown d |}.

(** The [text] of a line is false ([r.get("text") or ""] is then the empty
    string), or a string of whitespace and zero-width spaces only. *)
Definition blank_text (r : record) : bool :=
  match get r "text" with
  | SStr s => forallb (fun c => isspace c || (c =? ZWSP)) s
  | v => negb (truthy v)
  end.

(** The [lang_hint] of a line resolves to a true value of the label map. *)
Definition label_known `{Lowercase} (label_map : gmap pystr scalar)
    (r : record) : bool :=
  truthy (map_label_to_nllb (get r "lang_hint") label_map).

(** The state [process_shard] reaches without [--keep-hint] where it reaches
    [st] with it: the same counters, the lines written without their
    [lang_hint]. *)
Definition without_hint (st : shard_state) : shard_state :=
  {| fout := delete "lang_hint" <$> fout st;
     kept := kept st;
     skipped_empty := skipped_empty st;
     skipped_unknown := skipped_unknown st |}.

(** [totals] after the counters of one more shard are added to it. *)
Definition add_totals (tot : totals) (st : shard_state) : totals :=
  {| total_kept := total_kept tot + kept st;
     total_skipped_empty := total_skipped_empty tot + skipped_empty st;
     total_skipped_unknown_label :=
       total_skipped_unknown_label tot + skipped_unknown st |}.

(** A normalized record: a cleaned, non-empty [text], its sentences in
    [sents], and in [lang] a true value of the label map; its [lang_hint]
    resolves to that value when hints are kept, and is absent when they are
    not. *)
Definition normalized_record `{Lowercase} (label_map : gmap pystr scalar)
    (keep_hint : bool) (r : record) : Prop :=
  exists txt lang,
    r !! "text" = Some (SStr txt) /\ txt <> [] /\ normalize_text txt = txt /\
    r !! "sents" = Some (SStr (text_to_sentences txt)) /\
    r !! "lang" = Some lang /\ truthy lang = true /\
    (exists k, label_map !! k = Some lang) /\
    (if keep_hint
     then map_label_to_nllb (get r "lang_hint") label_map = lang
     else r !! "lang_hint" = None).

End Tally.
Export Tally.

Arguments isspace : simpl never.
Arguments url_at : simpl never.
Arguments is_terminal : simpl never.

(** * Properties *)

(** ** Lowercasing *)

Section AsciiLowercase.

Lemma isspace_false_range c : 33 <= c -> c < 133 -> isspace c = false.
Proof.
  intros H1 H2. unfold isspace.
  repeat match goal with
         | |- context [?a <=? ?b] => rewrite (proj2 (N.leb_gt a b)) by lia
         | |- context [?a =? ?b] => rewrite (proj2 (N.eqb_neq a b)) by lia
         end.
  by rewrite !andb_false_r.
Qed.

Lemma isspace_ascii_lower_char c : isspace (ascii_lower_char c) = isspace c.
Proof.
  unfold ascii_lower_char.
  destruct ((65 <=? c) && (c <=? 90)) eqn:E; [|reflexivity].
  apply andb_prop in E as [E1 E2].
  apply N.leb_le in E1, E2.
  rewrite !isspace_false_range by lia. reflexivity.
Qed.

Lemma lstrip_map (f : N -> N) s :
  (forall c, isspace (f c) = isspace c) ->
  lstrip (List.map f s) = List.map f (lstrip s).
Proof.
  intros Hf. induction s as [|c t IH]; simpl; [reflexivity|].
  rewrite Hf. by destruct (isspace c).
Qed.

Lemma rstrip_map (f : N -> N) s :
  (forall c, isspace (f c) = isspace c) ->
  rstrip (List.map f s) = List.map f (rstrip s).
Proof.
  intros Hf. induction s as [|c t IH]; simpl; [reflexivity|].
  rewrite IH, Hf. destruct (rstrip t); simpl; [|reflexivity].
  by destruct (isspace c).
Qed.

Lemma strip_map (f : N -> N) s :
  (forall c, isspace (f c) = isspace c) ->
  strip (List.map f s) = List.map f (strip s).
Proof. intros Hf. unfold strip. by rewrite lstrip_map, rstrip_map. Qed.

End AsciiLowercase.

(** Lowercasing of text that has cased letters in the ASCII range only. *)
#[export] Instance ascii_lowercase : Lowercase := {|
  lower := List.map ascii_lower_char;
  lower_ascii := fun s _ => eq_refl;
  lower_strip := fun s => strip_map ascii_lower_char s isspace_ascii_lower_char
|}.

(** ** Whitespace *)

Section Whitespace.

Lemma isspace_SP : isspace SP = true.
Proof. reflexivity. Qed.

Lemma rstrip_cons_nonspace c t :
  isspace c = false -> rstrip (c :: t) = c :: rstrip t.
Proof. intros Hc. simpl. rewrite Hc. destruct (rstrip t); reflexivity. Qed.

Lemma ends_ok_rstrip s : ends_ok (rstrip s) = true.
Proof.
  induction s as [|c t IH]; simpl; [reflexivity|].
  destruct (rstrip t) as [|d t'] eqn:E.
  - destruct (isspace c) eqn:Hc; simpl; [reflexivity | by rewrite Hc].
  - exact IH.
Qed.

Lemma lstrip_head s :
  lstrip s = [] \/ exists c t, lstrip s = c :: t /\ isspace c = false.
Proof.
  induction s as [|c t IH]; simpl; [by left|].
  destruct (isspace c) eqn:Hc; [exact IH|].
  right. by exists c, t.
Qed.

Lemma ws_sub_normal s b :
  ends_ok s = true -> s <> [] \/ b = false ->
  ws_normal_from b (ws_sub_from b s) = true.
Proof.
  revert b. induction s as [|c t IH]; intros b Hend Hne.
  - destruct Hne as [Hne | ->]; [done | reflexivity].
  - assert (Ht : ends_ok t = true) by (simpl in Hend; by destruct t).
    simpl. destruct (isspace c) eqn:Hc.
    + assert (t <> []) by (intros ->; simpl in Hend; by rewrite Hc in Hend).
      destruct b; simpl.
      * apply IH; auto.
      * rewrite ?isspace_SP; simpl. apply IH; auto.
    + simpl. rewrite Hc. apply IH; auto.
Qed.

(** Trimmed and collapsed text is empty or normal. *)
Lemma ws_normalize_shape s :
  ws_normalize s = [] \/ ws_normal (ws_normalize s) = true.
Proof.
  unfold ws_normalize, WS_RE_sub, strip, ws_normal.
  destruct (lstrip_head s) as [-> | (c & t & -> & Hc)]; [by left|].
  right. rewrite (rstrip_cons_nonspace _ _ Hc). simpl. rewrite Hc. simpl.
  rewrite Hc. apply ws_sub_normal; [apply ends_ok_rstrip | by right].
Qed.

Lemma ws_normal_from_nonempty s : ws_normal_from true s = true -> s <> [].
Proof. by destruct s. Qed.

Lemma ws_normal_head b c t :
  ws_normal_from b (c :: t) = true -> b = true -> isspace c = false.
Proof. simpl. destruct (isspace c); [|done]. by intros H ->. Qed.

Lemma ws_normal_lstrip s : ws_normal s = true -> lstrip s = s.
Proof.
  destruct s as [|c t]; [done|]. intros Hn. simpl.
  by rewrite (ws_normal_head _ _ _ Hn eq_refl).
Qed.

Lemma ws_normal_rstrip b s : ws_normal_from b s = true -> rstrip s = s.
Proof.
  revert b. induction s as [|c t IH]; intros b Hn; [reflexivity|].
  simpl in *. destruct (isspace c) eqn:Hc.
  - apply andb_prop in Hn as [_ Hn]. rewrite (IH _ Hn).
    destruct t; [done | reflexivity].
  - rewrite (IH _ Hn). destruct t; reflexivity.
Qed.

Lemma ws_normal_strip s : ws_normal s = true -> strip s = s.
Proof.
  intros Hn. unfold strip. rewrite (ws_normal_lstrip _ Hn).
  by apply ws_normal_rstrip with (b := true).
Qed.

Lemma ws_normal_ws_sub b s : ws_normal_from b s = true -> ws_sub_from b s = s.
Proof.
  revert b. induction s as [|c t IH]; intros b Hn; [reflexivity|].
  simpl in *. destruct (isspace c) eqn:Hc.
  - apply andb_prop in Hn as [Hn Ht]. apply andb_prop in Hn as [Hb Hsp].
    destruct b; [done|]. apply N.eqb_eq in Hsp as ->. by rewrite (IH _ Ht).
  - by rewrite (IH _ Hn).
Qed.

Lemma ws_normal_WS_RE_sub s : ws_normal s = true -> WS_RE_sub s = s.
Proof.
  intros Hn. unfold WS_RE_sub. destruct s as [|c t]; [done|].
  pose proof (ws_normal_head _ _ _ Hn eq_refl) as Hc.
  unfold ws_normal in Hn. simpl in *. rewrite Hc in *.
  by rewrite (ws_normal_ws_sub _ _ Hn).
Qed.

Lemma ws_normal_fixed s : ws_normal s = true -> ws_normalize s = s.
Proof.
  intros Hn. unfold ws_normalize. rewrite (ws_normal_strip _ Hn).
  by apply ws_normal_WS_RE_sub.
Qed.

End Whitespace.

(** ** URL masking *)

Section UrlMasking.

Lemma after_scheme_cons c t :
  after_scheme (c :: t) =
  if 104 =? c
  then match strip_prefix (lit "ttps://") t with
       | Some r => Some r
       | None => strip_prefix (lit "ttp://") t
       end
  else None.
Proof.
  unfold after_scheme.
  change (lit "https://") with (104 :: lit "ttps://").
  change (lit "http://") with (104 :: lit "ttp://").
  cbn [strip_prefix]. by destruct (104 =? c).
Qed.

Lemma url_at_head c t : url_at (c :: t) = true -> c = 104.
Proof.
  unfold url_at. rewrite after_scheme_cons.
  destruct (N.eqb_spec 104 c); [done | discriminate].
Qed.

Lemma url_at_not_h c t : c <> 104 -> url_at (c :: t) = false.
Proof.
  intros Hc. destruct (url_at (c :: t)) eqn:E; [|reflexivity].
  by apply url_at_head in E.
Qed.

Lemma url_at_space c t : isspace c = true -> url_at (c :: t) = false.
Proof. intros Hc. apply url_at_not_h. by intros ->. Qed.

Lemma url_sub_token r :
  url_sub_from false (URL_TOKEN ++ r) = URL_TOKEN ++ url_sub_from false r.
Proof.
  change URL_TOKEN with [60; 85; 82; 76; 62]. cbn [app].
  repeat (cbn [url_sub_from]; rewrite url_at_not_h by discriminate).
  reflexivity.
Qed.

Lemma url_sub_same_to_token s : same_to_token s (url_sub_from false s).
Proof.
  induction s as [|c t IH]; [constructor|].
  cbn [url_sub_from]. destruct (url_at (c :: t)) eqn:E.
  - apply url_at_head in E as ->. apply stt_token.
  - by apply stt_cons.
Qed.

Lemma strip_prefix_same_to_token p s s' :
  Forall (fun a => a <> 104 /\ a <> 60) p ->
  same_to_token s s' ->
  match strip_prefix p s, strip_prefix p s' with
  | Some r, Some r' => same_to_token r r'
  | None, None => True
  | _, _ => False
  end.
Proof.
  intros Hp. revert s s'.
  induction Hp as [|a p [Ha1 Ha2] _ IH]; intros s s' Hs; [exact Hs|].
  destruct Hs as [|c s s' Hs|s s']; simpl.
  - done.
  - destruct (a =? c); [by apply IH | done].
  - destruct (N.eqb_spec a 104); [done|].
    by destruct (N.eqb_spec a 60).
Qed.

Lemma same_to_token_head s s' :
  same_to_token s s' ->
  match s, s' with
  | c :: _, c' :: _ => isspace c = isspace c'
  | [], [] => True
  | _, _ => False
  end.
Proof. by destruct 1. Qed.

(** Whether the pattern matches at a position is not changed by masking
    what follows the position. *)
Lemma url_at_masked_tail c t :
  url_at (c :: url_sub_from false t) = url_at (c :: t).
Proof.
  pose proof (url_sub_same_to_token t) as Hs.
  unfold url_at. rewrite !after_scheme_cons.
  destruct (104 =? c); [|reflexivity].
  assert (Hp1 : Forall (fun a => a <> 104 /\ a <> 60) (lit "ttps://"))
    by (repeat constructor; discriminate).
  assert (Hp2 : Forall (fun a => a <> 104 /\ a <> 60) (lit "ttp://"))
    by (repeat constructor; discriminate).
  pose proof (strip_prefix_same_to_token _ _ _ Hp1 Hs) as H1.
  pose proof (strip_prefix_same_to_token _ _ _ Hp2 Hs) as H2.
  destruct (strip_prefix (lit "ttps://") t) as [r|],
           (strip_prefix (lit "ttps://") (url_sub_from false t)) as [r'|];
    try done.
  - apply same_to_token_head in H1. destruct r, r'; try done. by rewrite H1.
  - destruct (strip_prefix (lit "ttp://") t) as [r|],
             (strip_prefix (lit "ttp://") (url_sub_from false t)) as [r'|];
      try done.
    apply same_to_token_head in H2. destruct r, r'; try done. by rewrite H2.
Qed.

(** No raw URL survives masking: a second pass changes nothing, whether
    the first pass started outside a match or inside one. *)
Lemma url_sub_idem_both s :
  url_sub_from false (url_sub_from false s) = url_sub_from false s /\
  url_sub_from false (url_sub_from true s) = url_sub_from true s.
Proof.
  induction s as [|c t [IH1 IH2]]; [done|].
  split; cbn [url_sub_from].
  - destruct (url_at (c :: t)) eqn:E.
    + rewrite url_sub_token. by f_equal.
    + cbn [url_sub_from]. rewrite url_at_masked_tail, E. by rewrite IH1.
  - destruct (isspace c) eqn:Hc; [|exact IH2].
    cbn [url_sub_from]. rewrite (url_at_space _ _ Hc). by rewrite IH1.
Qed.

Lemma url_sub_idem s :
  url_sub_from false (url_sub_from false s) = url_sub_from false s.
Proof. apply url_sub_idem_both. Qed.

Lemma URL_RE_sub_idem s : URL_RE_sub (URL_RE_sub s) = URL_RE_sub s.
Proof. apply url_sub_idem. Qed.

Lemma url_sub_normal s :
  (forall b, ws_normal_from b s = true ->
             ws_normal_from b (url_sub_from false s) = true) /\
  (ws_normal_from false s = true ->
   ws_normal_from false (url_sub_from true s) = true).
Proof.
  induction s as [|c t [IH1 IH2]]; [done|].
  split.
  - intros b Hn. cbn [url_sub_from]. destruct (url_at (c :: t)) eqn:E.
    + apply url_at_head in E as ->.
      change (ws_normal_from false (url_sub_from true t) = true).
      apply IH2. exact Hn.
    + simpl in *. destruct (isspace c).
      * apply andb_prop in Hn as [-> Hn]. simpl. by apply IH1.
      * by apply IH1.
  - intros Hn. simpl in *. destruct (isspace c) eqn:Hc.
    + simpl. rewrite Hc. apply andb_prop in Hn as [-> Hn]. simpl. by apply IH1.
    + by apply IH2.
Qed.

Lemma URL_RE_sub_normal s :
  ws_normal s = true -> ws_normal (URL_RE_sub s) = true.
Proof. apply url_sub_normal. Qed.

Lemma url_sub_Forall (P : N -> Prop) b s :
  Forall P URL_TOKEN -> Forall P s -> Forall P (url_sub_from b s).
Proof.
  intros Htok Hs. revert b.
  induction Hs as [|c t Hc Ht IH]; intros b; [constructor|].
  cbn [url_sub_from]. destruct b.
  - destruct (isspace c); [constructor|]; auto.
  - destruct (url_at (c :: t)).
    + apply Forall_app; auto.
    + constructor; auto.
Qed.

End UrlMasking.

(** ** The cleaning transform *)

Section Cleaning.

Lemma replace_Forall (P : N -> Prop) old new s :
  P new -> Forall P s -> Forall P (replace old new s).
Proof.
  intros Hnew Hs. unfold replace. induction Hs as [|c t Hc _ IH]; simpl.
  - constructor.
  - constructor; [by destruct (c =? old) | exact IH].
Qed.

Lemma replace_removes old new s :
  new <> old -> Forall (fun c => c <> old) (replace old new s).
Proof.
  intros Hne. unfold replace. induction s as [|c t IH]; simpl; constructor.
  - by destruct (N.eqb_spec c old).
  - exact IH.
Qed.

Lemma replace_absent old new s :
  Forall (fun c => c <> old) s -> replace old new s = s.
Proof.
  unfold replace. induction 1 as [|c t Hc _ IH]; simpl; [reflexivity|].
  rewrite IH. by destruct (N.eqb_spec c old).
Qed.

Lemma replace_visible s :
  Forall visible (replace NBSP SP (replace ZWSP SP s)).
Proof.
  pose proof (replace_removes NBSP SP (replace ZWSP SP s)) as H1.
  assert (H2 : Forall (fun c => c <> ZWSP) (replace NBSP SP (replace ZWSP SP s))).
  { apply replace_Forall; [discriminate|]. apply replace_removes. discriminate. }
  specialize (H1 ltac:(discriminate)).
  rewrite Forall_forall in *. intros c Hc. split; auto.
Qed.

Lemma visible_replace s :
  Forall visible s -> replace NBSP SP (replace ZWSP SP s) = s.
Proof.
  intros Hs.
  rewrite (replace_absent ZWSP), (replace_absent NBSP); [reflexivity| |];
    eapply Forall_impl; eauto; by intros c [].
Qed.

Lemma lstrip_Forall (P : N -> Prop) s : Forall P s -> Forall P (lstrip s).
Proof.
  induction 1 as [|c t Hc Ht IH]; simpl; [constructor|].
  destruct (isspace c); [exact IH | by constructor].
Qed.

Lemma rstrip_Forall (P : N -> Prop) s : Forall P s -> Forall P (rstrip s).
Proof.
  induction 1 as [|c t Hc Ht IH]; simpl; [constructor|].
  destruct (rstrip t).
  - destruct (isspace c); repeat constructor; done.
  - by constructor.
Qed.

Lemma ws_sub_Forall (P : N -> Prop) b s :
  P SP -> Forall P s -> Forall P (ws_sub_from b s).
Proof.
  intros Hsp Hs. revert b.
  induction Hs as [|c t Hc Ht IH]; intros b; simpl; [constructor|].
  destruct (isspace c); [destruct b|]; try constructor; auto.
Qed.

Lemma visible_SP : visible SP.
Proof. split; discriminate. Qed.

Lemma visible_URL_TOKEN : Forall visible URL_TOKEN.
Proof. repeat constructor; discriminate. Qed.

(** What [normalize_text] computes, as one pipeline over any text. *)
Lemma normalize_text_unfold s :
  normalize_text s =
  URL_RE_sub (ws_normalize (replace NBSP SP (replace ZWSP SP s))).
Proof. by destruct s. Qed.

Lemma normalize_text_visible s : Forall visible (normalize_text s).
Proof.
  rewrite normalize_text_unfold.
  apply url_sub_Forall; [apply visible_URL_TOKEN|].
  apply ws_sub_Forall; [apply visible_SP|].
  apply rstrip_Forall, lstrip_Forall, replace_visible.
Qed.

(** Cleaned text is empty or has normal whitespace. *)
Lemma normalize_text_shape s :
  normalize_text s = [] \/ ws_normal (normalize_text s) = true.
Proof.
  rewrite normalize_text_unfold.
  destruct (ws_normalize_shape (replace NBSP SP (replace ZWSP SP s)))
    as [-> | Hn]; [by left | right].
  by apply URL_RE_sub_normal.
Qed.

Lemma normalize_text_idem s : normalize_text (normalize_text s) = normalize_text s.
Proof.
  destruct (normalize_text_shape s) as [E | Hn]; [by rewrite E|].
  rewrite (normalize_text_unfold (normalize_text s)).
  rewrite (visible_replace _ (normalize_text_visible s)).
  rewrite (ws_normal_fixed _ Hn).
  rewrite normalize_text_unfold. apply URL_RE_sub_idem.
Qed.

End Cleaning.

(** ** Sentence splitting *)

Section Sentences.

Lemma join_cons sep p ps :
  join sep (p :: ps) = p ++ concat (List.map (cons sep) ps).
Proof.
  revert p. induction ps as [|q ps IH]; intros p; simpl.
  - by rewrite app_nil_r.
  - simpl in IH. by rewrite IH.
Qed.

Lemma isspace_not_terminal c : isspace c = true -> is_terminal c = false.
Proof.
  intros Hc. unfold is_terminal.
  destruct (N.eqb_spec c 46) as [->|]; [done|].
  destruct (N.eqb_spec c 33) as [->|]; [done|].
  by destruct (N.eqb_spec c 63) as [->|].
Qed.

(** On text with normal whitespace every separator is one space, and the
    pieces are normal themselves. *)
Lemma sent_split_normal s : forall after_terminal in_sep b,
  ws_normal_from b s = true ->
  (in_sep = true -> b = true) ->
  (after_terminal = true -> b = false) ->
  exists f rest,
    sent_split_from after_terminal in_sep s = f :: rest /\
    ws_normal_from b f = true /\
    Forall (fun p => ws_normal p = true) rest /\
    s = f ++ concat (List.map (cons SP) rest).
Proof.
  induction s as [|c t IH]; intros a sep b Hn Hsep Ha.
  - exists [], []. by repeat split.
  - cbn [sent_split_from]. simpl in Hn. destruct (isspace c) eqn:Hc.
    + apply andb_prop in Hn as [Hn Ht]. apply andb_prop in Hn as [Hb Hsp].
      destruct b; [done|]. apply N.eqb_eq in Hsp as ->.
      destruct sep; [by specialize (Hsep eq_refl)|]. simpl.
      destruct a.
      * destruct (IH false true true Ht) as (f & rest & E & Hf & Hr & Hs);
          [done..|].
        exists [], (f :: rest). rewrite E. repeat split; [by constructor|].
        simpl. by rewrite Hs at 1.
      * destruct (IH (is_terminal SP) false true Ht) as (f & rest & E & Hf & Hr & Hs);
          [done | by rewrite isspace_not_terminal |].
        exists (SP :: f), rest. rewrite E. simpl. repeat split; try done.
        by rewrite Hs at 1.
    + simpl.
      destruct (IH (is_terminal c) false false Hn) as (f & rest & E & Hf & Hr & Hs);
        [done..|].
      exists (c :: f), rest. rewrite E. simpl. rewrite Hc.
      repeat split; try done. by rewrite Hs at 1.
Qed.

Lemma sentences_of_normal_pieces ps :
  Forall (fun p => ws_normal p = true) ps ->
  List.map strip
    (List.filter (fun s => negb (bool_decide (strip s = []))) ps) = ps.
Proof.
  induction 1 as [|p ps Hp _ IH]; simpl; [reflexivity|].
  rewrite (ws_normal_strip _ Hp).
  rewrite bool_decide_eq_false_2 by (by apply ws_normal_from_nonempty).
  simpl. by rewrite (ws_normal_strip _ Hp), IH.
Qed.

Lemma ws_normal_no_newline b p : ws_normal_from b p = true -> NL ∉ p.
Proof.
  revert b. induction p as [|c p IH]; intros b Hn; [apply not_elem_of_nil|].
  simpl in Hn. apply not_elem_of_cons. destruct (isspace c) eqn:Hc.
  - apply andb_prop in Hn as [Hn Hp]. apply andb_prop in Hn as [_ Hsp].
    apply N.eqb_eq in Hsp as ->. split; [discriminate | by eapply IH].
  - split; [by intros <- | by eapply IH].
Qed.

Lemma split_on_without sep p : sep ∉ p -> split_on sep p = [p].
Proof.
  induction p as [|c p IH]; [reflexivity|].
  intros [Hc Hp]%not_elem_of_cons. simpl.
  destruct (N.eqb_spec c sep) as [->|_]; [done|]. by rewrite IH.
Qed.

Lemma split_on_app sep p rest :
  sep ∉ p -> split_on sep (p ++ sep :: rest) = p :: split_on sep rest.
Proof.
  induction p as [|c p IH]; simpl.
  - intros _. by rewrite N.eqb_refl.
  - intros [Hc Hp]%not_elem_of_cons.
    destruct (N.eqb_spec c sep) as [->|_]; [done|]. by rewrite IH.
Qed.

(** Splitting at a separator undoes joining with it, when no part holds
    the separator. *)
Lemma split_on_join sep ps :
  Forall (fun p => sep ∉ p) ps -> ps <> [] -> split_on sep (join sep ps) = ps.
Proof.
  induction 1 as [|p ps Hp Hps IH]; [done|]. intros _.
  destruct ps as [|q ps]; [by apply split_on_without|].
  change (join sep (p :: q :: ps)) with (p ++ sep :: join sep (q :: ps)).
  rewrite split_on_app by done. by rewrite IH.
Qed.

(** The sentences of text with normal whitespace: each is normal, and
    single spaces put the text together again. *)
Lemma fallback_sentences_normal t :
  ws_normal t = true ->
  fallback_sentences t <> [] /\
  Forall (fun p => ws_normal p = true) (fallback_sentences t) /\
  join SP (fallback_sentences t) = t.
Proof.
  intros Hn.
  destruct (sent_split_normal t false false true Hn) as (f & rest & E & Hf & Hr & Hs);
    [done..|].
  assert (Hall : Forall (fun p => ws_normal p = true) (f :: rest)) by by constructor.
  unfold fallback_sentences, SENT_RE_split. rewrite E.
  rewrite (sentences_of_normal_pieces _ Hall).
  repeat split; [done | done |]. by rewrite join_cons.
Qed.

End Sentences.

(** ** Claims about cleaning and sentence splitting *)

(** C7 (spec P4, clean idempotence).  For every input string, cleaning the
    cleaned text again gives the cleaned text: [normalize_text] is
    idempotent. *)
Theorem normalize_text_idempotent (txt : pystr) :
  normalize_text (normalize_text txt) = normalize_text txt.
Proof. apply normalize_text_idem. Qed.

(** C8, as the claim states it, fails: a zero-width space between two
    letters is not deleted, the letters end up one space apart. *)
Lemma zero_width_space_not_deleted :
  normalize_text [97; ZWSP; 98] = lit "a b" /\
  normalize_text [97; ZWSP; 98] <> normalize_text (lit "ab").
Proof. split; [reflexivity | discriminate]. Qed.

(** C8, amended.  The cleaning step replaces every zero-width space
    (U+200B) and every no-break space (U+00A0) by an ordinary space before
    it trims, collapses whitespace and masks URLs: cleaning a text and
    cleaning the text with these characters turned into spaces give the same
    result, and the cleaned text contains neither character. *)
Theorem normalize_text_replaces_invisible (txt : pystr) :
  normalize_text txt = normalize_text (replace NBSP SP (replace ZWSP SP txt)) /\
  Forall (fun c => c <> ZWSP /\ c <> NBSP) (normalize_text txt).
Proof.
  split; [|apply normalize_text_visible].
  rewrite (normalize_text_unfold (replace _ _ _)).
  rewrite (visible_replace _ (replace_visible txt)).
  apply normalize_text_unfold.
Qed.

(** C3 (spec P7, sentence round-trip).  For every cleaned non-empty text
    [T], the fallback splitter yields at least one sentence, every sentence
    is non-empty after trimming, and the sentences joined by single spaces
    are [T] up to whitespace normalization (here they are [T] itself).  The
    sentences are also what splitting the newline-joined [sents] string at
    its newlines gives back. *)
Theorem sentences_round_trip (raw T : pystr) :
  T = normalize_text raw -> T <> [] ->
  fallback_sentences T <> [] /\
  Forall (fun s => strip s <> []) (fallback_sentences T) /\
  ws_normalize (join SP (fallback_sentences T)) = ws_normalize T /\
  join SP (fallback_sentences T) = T /\
  split_on NL (text_to_sentences T) = fallback_sentences T.
Proof.
  intros -> Hne.
  destruct (normalize_text_shape raw) as [E | Hn]; [done|].
  destruct (fallback_sentences_normal _ Hn) as (H1 & H2 & H3).
  repeat split; [exact H1 | | by rewrite H3 | exact H3 |].
  - eapply Forall_impl; [exact H2|]. intros s Hs.
    rewrite (ws_normal_strip _ Hs). by apply ws_normal_from_nonempty.
  - unfold text_to_sentences. apply split_on_join; [|exact H1].
    eapply Forall_impl; [exact H2|]. intros s Hs.
    exact (ws_normal_no_newline true s Hs).
Qed.

Lemma sentences_round_trip_witness :
  let raw := lit " Rain came early.  Plant now!   Which seed? " in
  let T := lit "Rain came early. Plant now! Which seed?" in
  (T = normalize_text raw /\ T <> []) /\
  fallback_sentences T =
    [lit "Rain came early."; lit "Plant now!"; lit "Which seed?"] /\
  join SP (fallback_sentences T) = T.
Proof.
  intros raw T.
  assert (H1 : T = normalize_text raw) by reflexivity.
  assert (H2 : T <> []) by discriminate.
  split; [by split|].
  split; [reflexivity|].
  apply (sentences_round_trip raw T H1 H2).
Defined.

(** ** Label resolution *)

Section Labels.
Context `{Lowercase}.

Lemma map_label_to_nllb_empty (M : gmap pystr scalar) :
  map_label_to_nllb (SStr []) M = SNone.
Proof. reflexivity. Qed.

Lemma map_label_to_nllb_nonempty (L : pystr) (M : gmap pystr scalar) :
  L <> [] ->
  map_label_to_nllb (SStr L) M = default SNone (M !! strip (lower L)).
Proof.
  intros HL. unfold map_label_to_nllb. simpl.
  rewrite bool_decide_eq_false_2 by done. simpl. by rewrite lower_strip.
Qed.

(** Every key of a loaded label map is trimmed and lowercased. *)
Lemma load_label_map_keys (raw : list (pystr * scalar)) (k : pystr) :
  is_Some (load_label_map raw !! k) ->
  exists k0, k0 ∈ raw.*1 /\ k = lower (strip k0).
Proof.
  unfold load_label_map.
  induction raw as [|[k1 v1] raw IH] using rev_ind; simpl.
  - rewrite lookup_empty. by intros [? ?].
  - rewrite foldl_app. simpl. rewrite fmap_app. simpl.
    destruct (decide (lower (strip k1) = k)) as [<-|Hne].
    + intros _. exists k1. split; [|done].
      apply elem_of_app. right. constructor.
    + rewrite lookup_insert_ne by done. intros Hk.
      destruct (IH Hk) as (k0 & Hin & ->). exists k0. split; [|done].
      apply elem_of_app. by left.
Qed.

End Labels.

(** C6, as the claim states it, fails: the empty label and a blank label
    have the same trimmed, lowercased form, yet the first is never resolved
    and the second is whenever the map has a key that normalizes to the
    empty string. *)
Lemma empty_and_blank_label_differ :
  let M := load_label_map [(lit " ", SStr (lit "und_Latn"))] in
  strip (lower []) = strip (lower (lit " ")) /\
  map_label_to_nllb (SStr []) M = SNone /\
  map_label_to_nllb (SStr (lit " ")) M = SStr (lit "und_Latn") /\
  map_label_to_nllb (SStr []) M <> map_label_to_nllb (SStr (lit " ")) M.
Proof. vm_compute. repeat split; discriminate. Qed.

(** C6, amended (spec P6).  For every label map [M], two non-empty label
    strings whose trimmed, lowercased forms are equal resolve to the same
    result (the same canonical code, or both unresolved); the empty label
    string is always unresolved. *)
Theorem label_resolution_by_normal_form `{Lowercase}
    (L1 L2 : pystr) (M : gmap pystr scalar) :
  L1 <> [] -> L2 <> [] ->
  strip (lower L1) = strip (lower L2) ->
  map_label_to_nllb (SStr L1) M = map_label_to_nllb (SStr L2) M /\
  map_label_to_nllb (SStr []) M = SNone.
Proof.
  intros H1 H2 E. split; [|reflexivity].
  rewrite !map_label_to_nllb_nonempty by done. by rewrite E.
Qed.

Lemma label_resolution_by_normal_form_witness :
  let M := load_label_map [(lit "luganda", SStr (lit "lug_Latn"))] in
  let L1 := lit " Luganda " in
  let L2 := lit "LUGANDA" in
  (L1 <> [] /\ L2 <> [] /\ strip (lower L1) = strip (lower L2)) /\
  map_label_to_nllb (SStr L1) M = SStr (lit "lug_Latn") /\
  map_label_to_nllb (SStr L1) M = map_label_to_nllb (SStr L2) M.
Proof.
  intros M L1 L2.
  assert (H1 : L1 <> []) by discriminate.
  assert (H2 : L2 <> []) by discriminate.
  assert (E : strip (lower L1) = strip (lower L2)) by reflexivity.
  split; [done|]. split; [reflexivity|].
  apply (label_resolution_by_normal_form L1 L2 M H1 H2 E).
Defined.

(** ** The per-shard loop of the Normalizer *)

Section ProcessShard.
Context `{Lowercase}.
Variable label_map : gmap pystr scalar.
Variable keep_hint : bool.


(** What one line does to the state: nothing but one counter going up by
    one, and one record appended when the counter is [kept]. *)
Lemma process_line_cases (st st' : shard_state) (r : record) :
  process_line label_map keep_hint st r = Some st' ->
  (exists r', fout st' = fout st ++ [r'] /\ same_other_fields r r' /\
     kept st' = (kept st + 1)%nat /\ skipped_empty st' = skipped_empty st /\
     skipped_unknown st' = skipped_unknown st) \/
  (fout st' = fout st /\ kept st' = kept st /\
   ((skipped_empty st' = (skipped_empty st + 1)%nat /\
     skipped_unknown st' = skipped_unknown st) \/
    (skipped_empty st' = skipped_empty st /\
     skipped_unknown st' = (skipped_unknown st + 1)%nat))).
Proof.
  unfold process_line. destruct (text_argument r) as [t|]; [simpl|done].
  case_bool_decide.
  { intros [= <-]. simpl. right. auto. }
  destruct (negb (truthy _)).
  { intros [= <-]. simpl. right. auto. }
  intros [= <-]. simpl. left. eexists. split; [reflexivity|].
  split; [|done].
  intros k Hk. unfold rewritten_fields in Hk.
  rewrite !not_elem_of_cons in Hk. destruct Hk as (H1 & H2 & H3 & H4 & _).
  destruct keep_hint.
  - by rewrite !lookup_insert_ne.
  - rewrite lookup_delete_ne by done. by rewrite !lookup_insert_ne.
Qed.

Lemma process_line_counts (st st' : shard_state) (r : record) :
  process_line label_map keep_hint st r = Some st' -> counts_one_more st st'.
Proof.
  intros Hl. unfold counts_one_more.
  destruct (process_line_cases _ _ _ Hl)
    as [(r' & _ & _ & ? & ? & ?) | (_ & ? & [[? ?] | [? ?]])]; auto.
Qed.


Lemma process_lines_app (st : shard_state) (l1 l2 : list record) :
  process_lines label_map keep_hint st (l1 ++ l2) =
  process_lines label_map keep_hint st l1 ≫=
    (fun st' => process_lines label_map keep_hint st' l2).
Proof.
  revert st. induction l1 as [|r l1 IH]; intros st; simpl; [reflexivity|].
  destruct (process_line label_map keep_hint st r); simpl; [apply IH | done].
Qed.


(** The counters of a shard that is read to its end add up to its lines. *)
Lemma process_lines_sum (st st' : shard_state) (lines : list record) :
  process_lines label_map keep_hint st lines = Some st' ->
  (kept st' + skipped_empty st' + skipped_unknown st' =
   kept st + skipped_empty st + skipped_unknown st + length lines)%nat /\
  (length (fout st') + kept st = length (fout st) + kept st')%nat.
Proof.
  revert st. induction lines as [|r lines IH]; intros st; simpl.
  - intros [= <-]. lia.
  - destruct (process_line label_map keep_hint st r) as [st1|] eqn:E; [|done].
    simpl. intros Hrest. destruct (IH _ Hrest) as [IH1 IH2].
    destruct (process_line_cases _ _ _ E)
      as [(r' & Hf & _ & ? & ? & ?) | (Hf & ? & [[? ?] | [? ?]])];
      rewrite Hf in IH2; rewrite ?length_app in IH2; simpl in IH2; lia.
Qed.

(** The records written come, in order, from lines of the shard, each with
    the fields it is not assigned left as they were. *)
Lemma process_lines_frame (st st' : shard_state) (lines : list record) :
  process_lines label_map keep_hint st lines = Some st' ->
  exists kept_lines written,
    fout st' = fout st ++ written /\
    sublist kept_lines lines /\
    Forall2 same_other_fields kept_lines written.
Proof.
  revert st. induction lines as [|r lines IH]; intros st; simpl.
  - intros [= <-]. exists [], []. rewrite app_nil_r. by repeat split.
  - destruct (process_line label_map keep_hint st r) as [st1|] eqn:E; [|done].
    simpl. intros Hrest.
    destruct (IH _ Hrest) as (ks & ws & Hf & Hsub & Hall).
    destruct (process_line_cases _ _ _ E)
      as [(r' & Hf1 & Hsame & _) | (Hf1 & _)].
    + exists (r :: ks), (r' :: ws). rewrite Hf, Hf1, <- app_assoc.
      repeat split; [by apply sublist_skip | by constructor].
    + exists ks, ws. rewrite Hf, Hf1.
      repeat split; [by apply sublist_cons | done].
Qed.

End ProcessShard.

(** ** Claims about the per-shard loop of the Normalizer *)

(** C4 (spec P8, drop accounting).  For every shard the Normalizer
    processes to its end (no line raises, so that the counters are
    returned), [kept + skipped_empty + skipped_unknown_label] is the number
    of lines of the shard, and every line makes exactly one of the three
    counters go up, by one. *)
Theorem drop_accounting `{Lowercase} (lines : list record)
    (label_map : gmap pystr scalar) (keep_hint : bool) (st : shard_state) :
  process_shard lines label_map keep_hint = Some st ->
  (kept st + skipped_empty st + skipped_unknown st = length lines)%nat /\
  forall before r after, lines = before ++ r :: after ->
    exists st1 st2,
      process_shard before label_map keep_hint = Some st1 /\
      process_shard (before ++ [r]) label_map keep_hint = Some st2 /\
      counts_one_more st1 st2.
Proof.
  unfold process_shard. intros Hst. split.
  - destruct (process_lines_sum _ _ _ _ _ Hst) as [Hsum _]. simpl in Hsum. lia.
  - intros before r after ->. rewrite process_lines_app in Hst.
    destruct (process_lines label_map keep_hint
                {| fout := []; kept := 0; skipped_empty := 0;
                   skipped_unknown := 0 |} before) as [st1|] eqn:E1; [|done].
    simpl in Hst.
    destruct (process_line label_map keep_hint st1 r) as [st2|] eqn:E2; [|done].
    exists st1, st2. split; [reflexivity|]. split.
    + rewrite process_lines_app, E1. simpl. by rewrite E2.
    + by eapply process_line_counts.
Qed.

(** C10 (frame).  Every line the Normalizer keeps is written as a record
    that has every field other than [text], [lang], [sents] and [lang_hint]
    exactly as the line has it, present or absent; so for every shard read to
    its end the records written come in order from [kept] lines of the shard,
    each with these fields unchanged. *)
Theorem kept_records_keep_other_fields `{Lowercase} (lines : list record)
    (label_map : gmap pystr scalar) (keep_hint : bool) (st : shard_state) :
  process_shard lines label_map keep_hint = Some st ->
  (forall st0 r st1,
     process_line label_map keep_hint st0 r = Some st1 ->
     kept st1 = (kept st0 + 1)%nat ->
     exists r',
       fout st1 = fout st0 ++ [r'] /\
       forall k, k ∉ ["text"; "lang"; "sents"; "lang_hint"] ->
                 r' !! k = r !! k) /\
  exists kept_lines,
    sublist kept_lines lines /\
    length kept_lines = kept st /\
    Forall2 (fun r r' =>
               forall k, k ∉ ["text"; "lang"; "sents"; "lang_hint"] ->
                         r' !! k = r !! k)
            kept_lines (fout st).
Proof.
  unfold process_shard. intros Hst. split.
  - intros st0 r st1 Hl Hk.
    destruct (process_line_cases _ _ _ _ _ Hl)
      as [(r' & Hf & Hsame & _) | (_ & Hk' & _)]; [|lia].
    exists r'. by split.
  - destruct (process_lines_frame _ _ _ _ _ Hst) as (ks & ws & Hf & Hsub & Hall).
    destruct (process_lines_sum _ _ _ _ _ Hst) as [_ Hlen].
    simpl in Hf, Hlen. subst ws.
    exists ks. split; [exact Hsub|]. split; [|exact Hall].
    apply Forall2_length in Hall. lia.
Qed.

Lemma drop_accounting_witness :
  let zero_text : record :=
    {[ "text" := SInt 0; "lang_hint" := SStr (lit "Luganda") ]} in
  let lines := [post_C; post_blank; zero_text; post_D] in
  let M := load_label_map luganda_map_raw in
  let st := {| fout := [post_C_normalized]; kept := 1;
               skipped_empty := 2; skipped_unknown := 1 |} in
  process_shard lines M false = Some st /\
  (kept st + skipped_empty st + skipped_unknown st = 4)%nat /\
  exists st1 st2,
    process_shard [post_C; post_blank] M false = Some st1 /\
    process_shard [post_C; post_blank; zero_text] M false = Some st2 /\
    counts_one_more st1 st2.
Proof.
  intros zero_text lines M st.
  assert (Hst : process_shard lines M false = Some st)
    by (vm_compute; reflexivity).
  split; [exact Hst|].
  destruct (drop_accounting lines M false st Hst) as [Hsum Hline].
  split; [exact Hsum|].
  exact (Hline [post_C; post_blank] zero_text [post_D] eq_refl).
Defined.

Lemma kept_records_keep_other_fields_witness :
  let lines := [post_C; post_blank; post_D] in
  let M := load_label_map luganda_map_raw in
  let st := {| fout := [post_C_normalized]; kept := 1;
               skipped_empty := 1; skipped_unknown := 1 |} in
  process_shard lines M false = Some st /\
  exists kept_lines,
    sublist kept_lines lines /\ length kept_lines = 1%nat.
Proof.
  intros lines M st.
  assert (Hst : process_shard lines M false = Some st)
    by (vm_compute; reflexivity).
  split; [exact Hst|].
  destruct (kept_records_keep_other_fields lines M false st Hst)
    as (_ & ks & Hsub & Hlen & _).
  exists ks. split; [exact Hsub | exact Hlen].
Defined.

(** ** Scenario C *)

Section ScenarioC.
Context `{Lowercase}.

Lemma lower_luganda : lower (lit "luganda") = lit "luganda".
Proof.
  rewrite lower_ascii; [reflexivity|].
  repeat (constructor; [reflexivity|]). constructor.
Qed.

Lemma lower_Luganda_padded : strip (lower (lit " Luganda ")) = lit "luganda".
Proof.
  rewrite lower_ascii; [reflexivity|].
  repeat (constructor; [reflexivity|]). constructor.
Qed.

Lemma load_luganda_map :
  load_label_map luganda_map_raw = {[ lit "luganda" := SStr (lit "lug_Latn") ]}.
Proof.
  unfold load_label_map, luganda_map_raw. cbn [foldl fst snd].
  change (strip (lit "luganda")) with (lit "luganda").
  by rewrite lower_luganda.
Qed.

Lemma resolve_Luganda_padded :
  map_label_to_nllb (get post_C "lang_hint") (load_label_map luganda_map_raw)
  = SStr (lit "lug_Latn").
Proof.
  change (get post_C "lang_hint") with (SStr (lit " Luganda ")).
  rewrite map_label_to_nllb_nonempty by discriminate.
  rewrite lower_Luganda_padded, load_luganda_map.
  by rewrite lookup_singleton_eq.
Qed.

End ScenarioC.

(** Scenario D of the specification: a post without [lang_hint] is dropped
    and counted as an unknown label. *)
Example scenario_D `{Lowercase} :
  process_shard [post_D] (load_label_map luganda_map_raw) false =
    Some {| fout := []; kept := 0; skipped_empty := 0; skipped_unknown := 1 |}.
Proof. reflexivity. Qed.

(** C9 (spec scenario C).  The post [{"text": "Check https://x.co/a now
    please", "lang_hint": " Luganda "}] (two spaces before [please]), with
    the label map [{"luganda": "lug_Latn"}] and [keep_hint] off, is written
    as the record with [text = "Check <URL> now please"],
    [lang = "lug_Latn"], [sents = "Check <URL> now please"] and no
    [lang_hint]. *)
Theorem scenario_C_normalized `{Lowercase} :
  process_shard [post_C] (load_label_map luganda_map_raw) false =
    Some {| fout := [post_C_normalized]; kept := 1;
            skipped_empty := 0; skipped_unknown := 0 |} /\
  post_C_normalized !! "lang_hint" = None.
Proof.
  split; [|reflexivity].
  unfold process_shard, process_lines, process_line.
  change (text_argument post_C)
    with (Some (lit "Check https://x.co/a now  please")).
  cbn [mbind option_bind].
  change (normalize_text (lit "Check https://x.co/a now  please"))
    with (lit "Check <URL> now please").
  rewrite resolve_Luganda_padded.
  vm_compute. reflexivity.
Qed.

(** ** The Reshaper *)

Section BuildPost.
Variable m : column_map.

Lemma build_post_None (rec : record) (sd : side) :
  build_post m rec sd = None <->
  is_blank (get rec (col_content (m_side m sd))) = true \/
  is_blank (get rec (col_id (m_side m sd))) = true.
Proof.
  unfold build_post.
  destruct (is_blank (get rec (col_content (m_side m sd)))); [by intuition|].
  destruct (is_blank (get rec (col_id (m_side m sd)))); [by intuition|].
  split; [discriminate | by intros [|]].
Qed.

(** The test of the code covers the test of section 4.2. *)
Lemma spec_blank_is_blank (rec : record) (col : string) :
  spec_blank rec col -> is_blank (get rec col) = true.
Proof.
  unfold spec_blank, is_blank, get.
  destruct (rec !! col) as [v|]; [|done]. simpl.
  destruct v; try done; intros ->; by rewrite orb_true_r.
Qed.

(** On a value that is true the two tests agree; so they do on strings. *)
Lemma is_blank_truthy (rec : record) (col : string) :
  truthy (get rec col) = true ->
  is_blank (get rec col) = true -> spec_blank rec col.
Proof.
  unfold spec_blank, is_blank, get.
  destruct (rec !! col) as [v|]; [|done]. simpl. intros ->. simpl.
  intros Hb%bool_decide_eq_true. by destruct v.
Qed.

Lemma truthy_SStr (s : pystr) : strip s <> [] -> truthy (SStr s) = true.
Proof.
  intros Hs. simpl. rewrite bool_decide_eq_false_2; [done|]. by intros ->.
Qed.

(** A side whose content or identifier is blank in the sense of section 4.2
    yields no post. *)
Lemma build_post_blank (rec : record) (sd : side) :
  spec_blank rec (col_content (m_side m sd)) \/
  spec_blank rec (col_id (m_side m sd)) ->
  build_post m rec sd = None.
Proof.
  intros Hb. apply build_post_None.
  destruct Hb as [Hb|Hb]; [left | right]; by apply spec_blank_is_blank.
Qed.

(** A side whose content and identifier are true values that are not blank
    yields a post. *)
Lemma build_post_present (rec : record) (sd : side) :
  truthy (get rec (col_content (m_side m sd))) = true ->
  truthy (get rec (col_id (m_side m sd))) = true ->
  ~ spec_blank rec (col_content (m_side m sd)) ->
  ~ spec_blank rec (col_id (m_side m sd)) ->
  is_Some (build_post m rec sd).
Proof.
  intros Ht1 Ht2 Hc Hi.
  destruct (build_post m rec sd) eqn:E; [by eexists|].
  apply build_post_None in E as [E|E]; exfalso.
  - by apply Hc, is_blank_truthy.
  - by apply Hi, is_blank_truthy.
Qed.

(** The identifier and the role of a post that is built. *)
Lemma build_post_id_role (rec p : record) (sd : side) :
  build_post m rec sd = Some p ->
  raw_id m sd rec = Some (str (get rec (col_id (m_side m sd)))) /\
  post_id p = SStr (id_prefix sd ++ str (get rec (col_id (m_side m sd)))) /\
  post_role p = SStr (lit (side_name sd)).
Proof.
  intros E. unfold raw_id. rewrite E. split; [reflexivity|].
  unfold build_post in E.
  destruct (is_blank (get rec (col_content (m_side m sd)))); [done|].
  destruct (is_blank (get rec (col_id (m_side m sd)))); [done|].
  injection E as <-. unfold post_id, post_role, get.
  split.
  - rewrite lookup_insert_eq. by destruct sd.
  - by rewrite !lookup_insert_ne, lookup_singleton_eq.
Qed.

(** The identifiers one wide record contributes. *)
Lemma posts_of_record_ids (rec : record) :
  List.map post_id (posts_of_record m rec) =
  List.map (fun x => SStr (lit "q:" ++ x)) (option_list (raw_id m question rec)) ++
  List.map (fun x => SStr (lit "r:" ++ x)) (option_list (raw_id m response rec)).
Proof.
  unfold posts_of_record. cbn [omap list_omap].
  destruct (build_post m rec question) as [p|] eqn:Eq;
    destruct (build_post m rec response) as [p'|] eqn:Er; cbn [List.map].
  all: try (apply build_post_id_role in Eq as (-> & -> & _)).
  all: try (apply build_post_id_role in Er as (-> & -> & _)).
  all: unfold raw_id; rewrite ?Eq, ?Er; reflexivity.
Qed.

Lemma posts_of_record_roles (rec : record) :
  Forall (fun p =>
            (post_role p = SStr (lit "question") ->
             exists raw, post_id p = SStr (lit "q:" ++ raw)) /\
            (post_role p = SStr (lit "response") ->
             exists raw, post_id p = SStr (lit "r:" ++ raw)))
         (posts_of_record m rec).
Proof.
  unfold posts_of_record. cbn [omap list_omap].
  destruct (build_post m rec question) as [p|] eqn:Eq;
    destruct (build_post m rec response) as [p'|] eqn:Er.
  all: try (apply build_post_id_role in Eq as (_ & Hq1 & Hq2)).
  all: try (apply build_post_id_role in Er as (_ & Hr1 & Hr2)).
  all: repeat constructor.
  all: try (rewrite Hq2; discriminate).
  all: try (rewrite Hr2; discriminate).
  all: intros _; eexists; eassumption.
Qed.

End BuildPost.

Section ReshapeRun.
Variable m : column_map.

Lemma reshape_run_from (acc : reshaped) (shards : list (string * list record)) :
  shards_posts
    (foldl (fun acc src =>
              let dst := reshape_shard m src.2 in
              {| shards_posts := shards_posts acc ++ [(src.1, dst)];
                 count_in := count_in acc + length src.2;
                 count_out := count_out acc + length dst |})
           acc shards)
  = shards_posts acc ++
    List.map (fun src => (src.1, reshape_shard m src.2)) shards.
Proof.
  revert acc. induction shards as [|src shards IH]; intros acc; simpl.
  - by rewrite app_nil_r.
  - rewrite IH. simpl. by rewrite <- app_assoc.
Qed.

(** A destination shard per source shard, under the same name. *)
Lemma reshape_run_shards (shards : list (string * list record)) :
  shards_posts (reshape_run m shards) =
  List.map (fun src => (src.1, reshape_shard m src.2)) shards.
Proof. unfold reshape_run. by rewrite reshape_run_from. Qed.

(** The posts of a run are the posts of its wide records, in order. *)
Lemma emitted_flat_map (shards : list (string * list record)) :
  emitted m shards = flat_map (posts_of_record m) (wide_records shards).
Proof.
  unfold emitted, wide_records. rewrite reshape_run_shards.
  induction shards as [|src shards IH]; simpl; [reflexivity|].
  rewrite IH. unfold reshape_shard. by rewrite flat_map_app.
Qed.

Lemma raw_ids_cons (sd : side) (rec : record) (recs : list record) :
  raw_ids m sd (rec :: recs) = option_list (raw_id m sd rec) ++ raw_ids m sd recs.
Proof. unfold raw_ids. simpl. by destruct (raw_id m sd rec). Qed.

Lemma ids_cons (rec : record) (recs : list record) :
  List.map post_id (flat_map (posts_of_record m) (rec :: recs)) =
  List.map post_id (posts_of_record m rec) ++
  List.map post_id (flat_map (posts_of_record m) recs).
Proof. simpl. by rewrite map_app. Qed.

(** Every identifier written is a raw identifier of its side behind the
    prefix of the side. *)
Lemma ids_elem (recs : list record) (v : scalar) :
  v ∈ List.map post_id (flat_map (posts_of_record m) recs) ->
  (exists x, x ∈ raw_ids m question recs /\ v = SStr (lit "q:" ++ x)) \/
  (exists x, x ∈ raw_ids m response recs /\ v = SStr (lit "r:" ++ x)).
Proof.
  induction recs as [|rec recs IH].
  - simpl. by intros ?%elem_of_nil.
  - rewrite ids_cons, !raw_ids_cons, posts_of_record_ids.
    rewrite !elem_of_app. intros [[Hv|Hv]|Hv].
    + left. apply list_elem_of_fmap in Hv as (x & -> & Hx).
      exists x. rewrite elem_of_app. auto.
    + right. apply list_elem_of_fmap in Hv as (x & -> & Hx).
      exists x. rewrite elem_of_app. auto.
    + destruct (IH Hv) as [(x & Hx & ->)|(x & Hx & ->)]; [left | right];
        exists x; rewrite elem_of_app; auto.
Qed.

Lemma q_not_r (x y : pystr) : SStr (lit "q:" ++ x) <> SStr (lit "r:" ++ y).
Proof. discriminate. Qed.

Lemma ids_NoDup (recs : list record) :
  NoDup (raw_ids m question recs) -> NoDup (raw_ids m response recs) ->
  NoDup (List.map post_id (flat_map (posts_of_record m) recs)).
Proof.
  induction recs as [|rec recs IH]; [constructor|].
  rewrite ids_cons, !raw_ids_cons, posts_of_record_ids.
  intros Hq Hr.
  apply NoDup_app in Hq as (Hq1 & Hq2 & Hq3).
  apply NoDup_app in Hr as (Hr1 & Hr2 & Hr3).
  apply NoDup_app. split; [|split; [|by apply IH]].
  - apply NoDup_app. split; [|split].
    + destruct (raw_id m question rec); simpl; [apply NoDup_singleton | constructor].
    + intros v (x & -> & _)%list_elem_of_fmap (y & E & _)%list_elem_of_fmap.
      by apply q_not_r in E.
    + destruct (raw_id m response rec); simpl; [apply NoDup_singleton | constructor].
  - intros v Hv Hrest. apply elem_of_app in Hv.
    destruct (ids_elem _ _ Hrest) as [(y & Hy & ->)|(y & Hy & ->)];
      destruct Hv as [(x & E & Hx)%list_elem_of_fmap|(x & E & Hx)%list_elem_of_fmap].
    + injection E as E. subst. eapply Hq2; eauto.
    + by apply q_not_r in E.
    + symmetry in E. by apply q_not_r in E.
    + injection E as E. subst. eapply Hr2; eauto.
Qed.

(** The identifiers of a side, prefixed, are among the identifiers written,
    in order. *)
Lemma ids_sublist (sd : side) (recs : list record) :
  List.map (fun x => SStr (id_prefix sd ++ x)) (raw_ids m sd recs)
    `sublist_of` List.map post_id (flat_map (posts_of_record m) recs).
Proof.
  induction recs as [|rec recs IH]; [done|].
  rewrite ids_cons, raw_ids_cons, posts_of_record_ids, map_app.
  apply sublist_app; [|exact IH].
  destruct sd; [by apply sublist_inserts_r | by apply sublist_inserts_l].
Qed.

Lemma ids_NoDup_inv (sd : side) (recs : list record) :
  NoDup (List.map post_id (flat_map (posts_of_record m) recs)) ->
  NoDup (raw_ids m sd recs).
Proof.
  intros Hnd.
  apply (NoDup_fmap_1 (fun x => SStr (id_prefix sd ++ x))).
  eapply sublist_NoDup; [exact Hnd | apply ids_sublist].
Qed.

End ReshapeRun.

(** ** Claims about the Reshaper *)

(** Scenario B of the specification: the question side gives the one post,
    the response side, whose text is empty, gives none. *)
Example scenario_B :
  posts_of_record columns_B wide_B =
    [ {[ "id" := SStr (lit "q:42"); "thread_id" := SStr (lit "T1");
         "created_at" := SNone; "author" := SNone; "lang_hint" := SNone;
         "text" := SStr (lit "Hello?"); "role" := SStr (lit "question") ]} ].
Proof. vm_compute. reflexivity. Qed.

(** C1.  The claim holds of a side with a blank field ([build_post_blank])
    and of a side whose two fields are true values ([build_post_present]),
    strings among them.  It fails on a side whose identifier is the number
    zero: the field is present and not blank after string conversion, the
    test [not rid] takes it for a missing one, and no post is written. *)
Theorem zero_id_yields_no_post :
  ~ spec_blank wide_zero_id (col_content (m_side columns_B question)) /\
  ~ spec_blank wide_zero_id (col_id (m_side columns_B question)) /\
  str (get wide_zero_id (col_id (m_side columns_B question))) = lit "0" /\
  build_post columns_B wide_zero_id question = None /\
  posts_of_record columns_B wide_zero_id = [].
Proof.
  repeat split; try reflexivity; vm_compute; discriminate.
Qed.

(** C5, as the claim states it, fails: a question that has two answers
    fills two wide records, and its post is written twice under one
    identifier. *)
Lemma question_with_two_answers_repeats_id :
  let shards := [("shard_00000.jsonl"%string, [wide_B; wide_B_second_answer])] in
  List.map post_id (emitted columns_B shards) =
    [SStr (lit "q:42"); SStr (lit "q:42"); SStr (lit "r:100")] /\
  ~ NoDup (List.map post_id (emitted columns_B shards)).
Proof.
  intros shards.
  assert (E : List.map post_id (emitted columns_B shards) =
              [SStr (lit "q:42"); SStr (lit "q:42"); SStr (lit "r:100")])
    by (vm_compute; reflexivity).
  split; [exact E|]. rewrite E. intros Hnd.
  apply NoDup_cons in Hnd as [Hnotin _]. apply Hnotin. constructor.
Qed.

(** C5, amended (spec P2).  In every run of the Reshaper an identifier
    starts with ["q:"] when the role is ["question"] and with ["r:"] when the
    role is ["response"]; and the identifiers written are unique within the
    run whenever no two posts of the same side come from records with the
    same raw identifier (as text), and only then. *)
Theorem post_ids_unique_and_prefixed (m : column_map)
    (shards : list (string * list record)) :
  Forall (fun p =>
            (post_role p = SStr (lit "question") ->
             exists raw, post_id p = SStr (lit "q:" ++ raw)) /\
            (post_role p = SStr (lit "response") ->
             exists raw, post_id p = SStr (lit "r:" ++ raw)))
         (emitted m shards) /\
  (NoDup (raw_ids m question (wide_records shards)) /\
   NoDup (raw_ids m response (wide_records shards)) <->
   NoDup (List.map post_id (emitted m shards))).
Proof.
  rewrite emitted_flat_map. split.
  - induction (wide_records shards) as [|rec recs IH]; simpl.
    + constructor.
    + apply Forall_app. split; [apply posts_of_record_roles | exact IH].
  - split.
    + intros [Hq Hr]. by apply ids_NoDup.
    + intros Hnd. split; by apply ids_NoDup_inv.
Qed.

Lemma post_ids_unique_and_prefixed_witness :
  let second_thread : record :=
    {[ "q_text" := SStr (lit "When to plant?"); "q_id" := SStr (lit "43");
       "r_text" := SStr (lit "In March."); "r_id" := SStr (lit "42");
       "thread" := SStr (lit "T2") ]} in
  let shards := [("shard_00000.jsonl"%string, [wide_B_second_answer]);
                 ("shard_00001.jsonl"%string, [second_thread; wide_zero_id])] in
  (raw_ids columns_B question (wide_records shards) = [lit "42"; lit "43"] /\
   raw_ids columns_B response (wide_records shards) = [lit "100"; lit "42"]) /\
  List.map post_id (emitted columns_B shards) =
    [SStr (lit "q:42"); SStr (lit "r:100"); SStr (lit "q:43"); SStr (lit "r:42")] /\
  NoDup (List.map post_id (emitted columns_B shards)).
Proof.
  intros second_thread shards.
  assert (Eq : raw_ids columns_B question (wide_records shards) =
               [lit "42"; lit "43"]) by (vm_compute; reflexivity).
  assert (Er : raw_ids columns_B response (wide_records shards) =
               [lit "100"; lit "42"]) by (vm_compute; reflexivity).
  assert (Hq : NoDup (raw_ids columns_B question (wide_records shards))).
  { rewrite Eq. apply (bool_decide_unpack _). vm_compute. exact I. }
  assert (Hr : NoDup (raw_ids columns_B response (wide_records shards))).
  { rewrite Er. apply (bool_decide_unpack _). vm_compute. exact I. }
  split; [by split|]. split; [vm_compute; reflexivity|].
  exact (proj1 (proj2 (post_ids_unique_and_prefixed columns_B shards))
           (conj Hq Hr)).
Defined.

(** ** The Sharder *)

Section Sharding.
Local Open Scope nat_scope.

Lemma ceil_div_step (n k : nat) :
  0 < k -> 0 < n -> ceil_div n k = S (ceil_div (n - k) k).
Proof.
  intros Hk Hn. unfold ceil_div.
  destruct (Nat.le_gt_cases n k) as [Hle|Hgt].
  - replace (n - k) with 0 by lia. simpl.
    rewrite (Nat.div_small (k - 1) k) by lia.
    symmetry. apply (Nat.div_unique (n + k - 1) k 1 (n - 1)); lia.
  - replace (n + k - 1) with (1 * k + (n - k + k - 1)) by lia.
    rewrite Nat.div_add_l by lia. reflexivity.
Qed.

Lemma ceil_div_zero (k : nat) : 0 < k -> ceil_div 0 k = 0.
Proof. intros Hk. unfold ceil_div. simpl. apply Nat.div_small. lia. Qed.

(** The batches put together are the rows, there are [ceil(n / chunksize)]
    of them, and none is empty or longer than [chunksize]. *)
Lemma batches_spec (fuel chunksize : nat) (rows : list record) :
  0 < chunksize -> length rows <= fuel ->
  concat (batches fuel chunksize rows) = rows /\
  length (batches fuel chunksize rows) = ceil_div (length rows) chunksize /\
  Forall (fun b => 0 < length b <= chunksize) (batches fuel chunksize rows).
Proof.
  intros Hk. revert rows.
  induction fuel as [|fuel IH]; intros rows Hlen.
  - destruct rows; [|simpl in Hlen; lia]. simpl.
    by rewrite ceil_div_zero.
  - destruct rows as [|r rows]; [simpl; by rewrite ceil_div_zero|].
    cbn [batches].
    destruct (IH (drop chunksize (r :: rows))) as (IH1 & IH2 & IH3).
    { rewrite length_drop. simpl in *. lia. }
    split; [|split].
    + cbn [concat]. rewrite IH1. apply take_drop.
    + cbn [length]. rewrite IH2, length_drop.
      symmetry. apply ceil_div_step; simpl; lia.
    + constructor; [|exact IH3]. rewrite length_take. simpl. lia.
Qed.

Lemma write_shards_spec (shard_idx : nat) (reader : list (list record)) :
  List.map snd (write_shards shard_idx reader).1 = reader /\
  List.map fst (write_shards shard_idx reader).1 =
    List.map shard_name (seq shard_idx (length reader)) /\
  (write_shards shard_idx reader).2 = shard_idx + length reader.
Proof.
  revert shard_idx. induction reader as [|df rest IH]; intros i; simpl.
  - repeat split. lia.
  - destruct (IH (S i)) as (IH1 & IH2 & IH3).
    destruct (write_shards (S i) rest) as [files n]. simpl in *.
    rewrite IH1, IH2, IH3. repeat split. lia.
Qed.

End Sharding.

(** C2 (spec P1, sharding completeness).  For every source and every
    positive chunk size [K], the lines of the shard files, taken in
    shard-index order and then in line order, are the rows of the source in
    their order, and the number of shard files is [ceil(total_rows / K)];
    the files are numbered from zero in the order written. *)
Theorem sharding_complete (rows : list record) (K : nat) :
  (0 < K)%nat ->
  let files := (convert_to_jsonl_shards rows K).1 in
  let shard_idx := (convert_to_jsonl_shards rows K).2 in
  concat (List.map snd files) = rows /\
  length files = ceil_div (length rows) K /\
  shard_idx = length files /\
  List.map fst files = List.map shard_name (seq 0 (length files)).
Proof.
  intros HK files shard_idx. subst files shard_idx.
  unfold convert_to_jsonl_shards, read_csv.
  destruct (batches_spec (length rows) K rows HK (le_n _)) as (H1 & H2 & _).
  destruct (write_shards_spec 0 (batches (length rows) K rows)) as (W1 & W2 & W3).
  assert (Hlen : length (write_shards 0 (batches (length rows) K rows)).1
                 = length (batches (length rows) K rows)).
  { rewrite <- W1 at 2. by rewrite length_map. }
  rewrite W1, W3, Hlen, H1, W2, H2. repeat split.
Qed.

Lemma sharding_complete_witness :
  let rows := [post_C; post_blank; post_D; wide_B; wide_zero_id] in
  (0 < 2)%nat /\
  List.map (fun f => (f.1, length f.2)) (convert_to_jsonl_shards rows 2).1 =
    [("shard_00000.jsonl"%string, 2%nat); ("shard_00001.jsonl"%string, 2%nat);
     ("shard_00002.jsonl"%string, 1%nat)] /\
  concat (List.map snd (convert_to_jsonl_shards rows 2).1) = rows /\
  length (convert_to_jsonl_shards rows 2).1 = 3%nat.
Proof.
  intros rows.
  assert (HK : (0 < 2)%nat) by lia.
  split; [exact HK|]. split; [reflexivity|].
  destruct (sharding_complete rows 2 HK) as (H1 & H2 & _).
  split; [exact H1 | exact H2].
Defined.

(** * Further properties of the three scripts *)

(** ** Shard files of the Sharder *)

Section ShardNames.
Local Open Scope nat_scope.

Lemma list_ascii_of_string_app (s t : string) :
  list_ascii_of_string (s ++ t) =
  list_ascii_of_string s ++ list_ascii_of_string t.
Proof. induction s as [|a s IH]; simpl; [reflexivity | by rewrite IH]. Qed.

Lemma list_ascii_of_string_inj (s t : string) :
  list_ascii_of_string s = list_ascii_of_string t -> s = t.
Proof.
  intros E. rewrite <- (string_of_list_ascii_of_string s),
                    <- (string_of_list_ascii_of_string t). by rewrite E.
Qed.

Lemma zeros_succ (k : nat) :
  String.concat "" (List.repeat "0"%string (S k)) =
  String "0" (String.concat "" (List.repeat "0"%string k)).
Proof. destruct k; reflexivity. Qed.

Lemma uint_of_zeros (k : nat) (s : string) (d : Decimal.uint) :
  NilEmpty.uint_of_string s = Some d ->
  exists d', NilEmpty.uint_of_string
               (String.concat "" (List.repeat "0"%string k) ++ s) = Some d' /\
             Nat.of_uint d' = Nat.of_uint d.
Proof.
  intros Hs. induction k as [|k (d' & E & Hd')].
  - exists d. by split.
  - rewrite zeros_succ.
    change (NilEmpty.uint_of_string
              (String "0" (String.concat "" (List.repeat "0"%string k)) ++ s))
      with (uint_of_char "0"
              (NilEmpty.uint_of_string
                 (String.concat "" (List.repeat "0"%string k) ++ s))).
    rewrite E. exists (Decimal.D0 d'). split; [reflexivity | exact Hd'].
Qed.

Lemma to_uint_not_Nil (n : nat) : Nat.to_uint n <> Decimal.Nil.
Proof.
  intros E. pose proof (DecimalNat.Unsigned.of_to n) as Hn.
  rewrite E in Hn. simpl in Hn. subst n. discriminate.
Qed.

(** The number can be read back from its padded form. *)
Lemma pad5_decode (n : nat) :
  exists d, NilEmpty.uint_of_string (pad5 n) = Some d /\ Nat.of_uint d = n.
Proof.
  unfold pad5.
  assert (Hd : NilEmpty.uint_of_string
                 (NilZero.string_of_uint (Nat.to_uint n)) = Some (Nat.to_uint n)).
  { pose proof (NilZero.usu (Nat.to_uint n) (to_uint_not_Nil n)) as Hu.
    unfold NilZero.uint_of_string in Hu.
    by destruct (NilZero.string_of_uint (Nat.to_uint n)). }
  destruct (uint_of_zeros
              (5 - String.length (NilZero.string_of_uint (Nat.to_uint n)))
              _ _ Hd) as (d' & E & Hd').
  exists d'. split; [exact E|]. rewrite Hd'. apply DecimalNat.Unsigned.of_to.
Qed.

Lemma pad5_inj (i j : nat) : pad5 i = pad5 j -> i = j.
Proof.
  intros E.
  destruct (pad5_decode i) as (di & Ei & <-).
  destruct (pad5_decode j) as (dj & Ej & <-).
  rewrite E in Ei. rewrite Ei in Ej. by injection Ej as ->.
Qed.

Lemma shard_name_inj (i j : nat) : shard_name i = shard_name j -> i = j.
Proof.
  unfold shard_name. intros E. apply pad5_inj.
  apply (f_equal list_ascii_of_string) in E.
  rewrite !list_ascii_of_string_app in E.
  apply app_inv_head, app_inv_tail in E.
  by apply list_ascii_of_string_inj.
Qed.

End ShardNames.

(** X1.  Whatever batches the reader yields, the loop writes one file per
    batch, in the order of the batches and with the rows of the batch as its
    lines, names the files [shard_name 0], [shard_name 1], ... and ends with
    [shard_idx] equal to the number of files. *)
Theorem write_shards_one_file_per_batch (reader : list (list record)) :
  List.map snd (write_shards 0 reader).1 = reader /\
  List.map fst (write_shards 0 reader).1 =
    List.map shard_name (seq 0 (length reader)) /\
  length (write_shards 0 reader).1 = length reader /\
  (write_shards 0 reader).2 = length reader.
Proof.
  destruct (write_shards_spec 0 reader) as (W1 & W2 & W3).
  repeat split; [exact W1 | exact W2 | | exact W3].
  rewrite <- W1 at 2. by rewrite length_map.
Qed.

(** X2.  Two shard indices never share a file name, so the files of one run
    have pairwise distinct names: no shard overwrites another. *)
Theorem shard_names_distinct (reader : list (list record)) :
  (forall i j, shard_name i = shard_name j -> i = j) /\
  NoDup (List.map fst (write_shards 0 reader).1).
Proof.
  split; [exact shard_name_inj|].
  destruct (write_shards_spec 0 reader) as (_ & -> & _).
  apply NoDup_fmap_2; [|apply NoDup_seq].
  intros i j. apply shard_name_inj.
Qed.

(** ** Posts of the Reshaper *)

Section PostInvariants.
Variable m : column_map.

Lemma is_blank_false (v : scalar) :
  is_blank v = false -> truthy v = true /\ strip (str v) <> [].
Proof.
  unfold is_blank. intros [Ht Hs]%orb_false_elim.
  split; [by destruct (truthy v)|]. by apply bool_decide_eq_false in Hs.
Qed.

Lemma get_agree (rec rec' : record) (k : string) :
  rec !! k = rec' !! k -> get rec k = get rec' k.
Proof. unfold get. by intros ->. Qed.

(** What [build_post] guarantees of a post it returns. *)
Lemma build_post_fields (rec p : record) (sd : side) :
  build_post m rec sd = Some p ->
  exists raw txt,
    strip raw <> [] /\ strip txt <> [] /\
    p !! "id" = Some (SStr (id_prefix sd ++ raw)) /\
    p !! "text" = Some (SStr txt) /\
    p !! "role" = Some (SStr (lit (side_name sd))) /\
    dom p = list_to_set ["id"; "thread_id"; "created_at"; "author";
                         "lang_hint"; "text"; "role"].
Proof.
  unfold build_post.
  destruct (is_blank (get rec (col_content (m_side m sd)))) eqn:Ht; [done|].
  destruct (is_blank (get rec (col_id (m_side m sd)))) eqn:Hi; [done|].
  apply is_blank_false in Ht as [_ Ht]. apply is_blank_false in Hi as [_ Hi].
  intros [= <-].
  exists (str (get rec (col_id (m_side m sd)))),
         (str (get rec (col_content (m_side m sd)))).
  split; [exact Hi|]. split; [exact Ht|]. split; [|split; [|split]].
  - rewrite lookup_insert_eq. by destruct sd.
  - do 5 (rewrite lookup_insert_ne by done). by rewrite lookup_insert_eq.
  - by rewrite !lookup_insert_ne, lookup_singleton_eq.
  - rewrite !dom_insert_L, dom_singleton_L. simpl.
    by rewrite union_empty_r_L.
Qed.


Lemma posts_of_record_elem (rec p : record) :
  p ∈ posts_of_record m rec -> exists sd, build_post m rec sd = Some p.
Proof.
  unfold posts_of_record.
  intros (sd & _ & E)%list_elem_of_omap. by exists sd.
Qed.

Lemma emitted_elem (shards : list (string * list record)) (p : record) :
  p ∈ emitted m shards ->
  exists rec sd, rec ∈ wide_records shards /\ build_post m rec sd = Some p.
Proof.
  rewrite emitted_flat_map.
  intros (rec & Hrec & Hp)%list_elem_of_In%in_flat_map.
  apply list_elem_of_In in Hrec, Hp.
  apply posts_of_record_elem in Hp as [sd E]. by exists rec, sd.
Qed.

Lemma posts_of_record_length (rec : record) :
  (length (posts_of_record m rec) <= 2)%nat.
Proof.
  unfold posts_of_record. cbn [omap list_omap].
  destruct (build_post m rec question), (build_post m rec response);
    simpl; lia.
Qed.

Lemma reshape_shard_length (lines : list record) :
  (length (reshape_shard m lines) <= 2 * length lines)%nat.
Proof.
  unfold reshape_shard. induction lines as [|rec lines IH]; simpl; [lia|].
  rewrite length_app. pose proof (posts_of_record_length rec). lia.
Qed.

Lemma reshape_run_counts_from (acc : reshaped)
    (shards : list (string * list record)) :
  let res :=
    foldl (fun acc src =>
             let dst := reshape_shard m src.2 in
             {| shards_posts := shards_posts acc ++ [(src.1, dst)];
                count_in := count_in acc + length src.2;
                count_out := count_out acc + length dst |})
          acc shards in
  count_in res = (count_in acc + length (wide_records shards))%nat /\
  count_out res =
    (count_out acc +
     length (flat_map (posts_of_record m) (wide_records shards)))%nat.
Proof.
  revert acc. induction shards as [|src shards IH]; intros acc; simpl.
  - unfold wide_records. simpl. lia.
  - destruct (IH {| shards_posts := shards_posts acc ++ [(src.1, reshape_shard m src.2)];
                    count_in := count_in acc + length src.2;
                    count_out := count_out acc + length (reshape_shard m src.2) |})
      as [IH1 IH2].
    simpl in IH1, IH2. rewrite IH1, IH2.
    unfold wide_records, reshape_shard. simpl.
    rewrite flat_map_app, !length_app. lia.
Qed.

End PostInvariants.

(** X3.  Every post a run of the Reshaper writes has exactly the seven
    fields of [build_post]; its [text] is a string that is not blank, its
    [id] is a string made of the prefix of its side and a raw identifier
    that is not blank, and its [role] is the name of its side. *)
Theorem emitted_posts_well_formed (m : column_map)
    (shards : list (string * list record)) :
  Forall (fun p =>
            exists sd raw txt,
              strip raw <> [] /\ strip txt <> [] /\
              p !! "id" = Some (SStr (id_prefix sd ++ raw)) /\
              p !! "text" = Some (SStr txt) /\
              p !! "role" = Some (SStr (lit (side_name sd))) /\
              dom p = list_to_set ["id"; "thread_id"; "created_at"; "author";
                                   "lang_hint"; "text"; "role"])
         (emitted m shards).
Proof.
  apply Forall_forall. intros p (rec & sd & _ & E)%emitted_elem.
  exists sd. by apply build_post_fields in E.
Qed.

(** X4.  [build_post] reads a wide record only at the columns the column map
    names for the side and for the thread: two records that agree there give
    the same result, whatever their other columns hold. *)
Theorem build_post_reads_mapped_columns (m : column_map)
    (rec rec' : record) (sd : side) :
  (forall col, col ∈ [col_content (m_side m sd); col_id (m_side m sd);
                      col_created_at (m_side m sd); col_user_id (m_side m sd);
                      col_language (m_side m sd); m_thread_id m] ->
               rec !! col = rec' !! col) ->
  build_post m rec sd = build_post m rec' sd.
Proof.
  intros Hsame. unfold build_post.
  rewrite (get_agree rec rec' (col_content (m_side m sd))),
          (get_agree rec rec' (col_id (m_side m sd))),
          (get_agree rec rec' (col_created_at (m_side m sd))),
          (get_agree rec rec' (col_user_id (m_side m sd))),
          (get_agree rec rec' (col_language (m_side m sd))),
          (get_agree rec rec' (m_thread_id m));
    [reflexivity|..]; apply Hsame; repeat constructor.
Qed.

Lemma build_post_reads_mapped_columns_witness :
  let rec' := <["r_text" := SStr (lit "Hi.")]> wide_zero_id in
  (forall col, col ∈ [col_content (m_side columns_B question);
                      col_id (m_side columns_B question);
                      col_created_at (m_side columns_B question);
                      col_user_id (m_side columns_B question);
                      col_language (m_side columns_B question);
                      m_thread_id columns_B] ->
               wide_zero_id !! col = rec' !! col) /\
  build_post columns_B wide_zero_id question = build_post columns_B rec' question.
Proof.
  intros rec'.
  assert (Hsame : forall col,
             col ∈ [col_content (m_side columns_B question);
                    col_id (m_side columns_B question);
                    col_created_at (m_side columns_B question);
                    col_user_id (m_side columns_B question);
                    col_language (m_side columns_B question);
                    m_thread_id columns_B] ->
             wide_zero_id !! col = rec' !! col).
  { intros col Hcol. unfold rec'. rewrite lookup_insert_ne; [reflexivity|].
    intros <-. simpl in Hcol.
    repeat (apply elem_of_cons in Hcol as [Hcol|Hcol]; [discriminate|]).
    by apply elem_of_nil in Hcol. }
  split; [exact Hsame|].
  apply (build_post_reads_mapped_columns columns_B wide_zero_id rec' question Hsame).
Defined.

(** X5.  At the end of a run [count_in] is the number of wide records read
    and [count_out] the number of posts written, which is at most twice
    [count_in]; the destination shards carry the names of the source shards,
    in the same order. *)
Theorem reshape_run_counters (m : column_map)
    (shards : list (string * list record)) :
  count_in (reshape_run m shards) = length (wide_records shards) /\
  count_out (reshape_run m shards) = length (emitted m shards) /\
  (count_out (reshape_run m shards) <= 2 * count_in (reshape_run m shards))%nat /\
  List.map fst (shards_posts (reshape_run m shards)) = List.map fst shards.
Proof.
  destruct (reshape_run_counts_from m
              {| shards_posts := []; count_in := 0; count_out := 0 |} shards)
    as [H1 H2].
  simpl in H1, H2. unfold reshape_run.
  rewrite H1, H2, emitted_flat_map.
  repeat split.
  - pose proof (reshape_shard_length m (wide_records shards)) as Hle.
    unfold reshape_shard in Hle. exact Hle.
  - fold (reshape_run m shards). rewrite reshape_run_shards.
    rewrite <- list_fmap_compose. reflexivity.
Qed.

(** X6.  The posts a run writes are the posts of its wide records taken in
    the order read, question side before response side, and do not depend on
    how the records are cut into shards: two sets of shards that hold the
    same records in the same order give the same posts. *)
Theorem emitted_independent_of_sharding (m : column_map)
    (shards shards' : list (string * list record)) :
  wide_records shards = wide_records shards' ->
  emitted m shards = emitted m shards' /\
  emitted m shards =
    flat_map (fun rec => option_list (build_post m rec question) ++
                         option_list (build_post m rec response))
             (wide_records shards).
Proof.
  intros E. rewrite !emitted_flat_map, E. split; [reflexivity|].
  apply flat_map_ext. intros rec. unfold posts_of_record.
  cbn [omap list_omap].
  by destruct (build_post m rec question), (build_post m rec response).
Qed.

Lemma emitted_independent_of_sharding_witness :
  let one := [("shard_00000.jsonl"%string, [wide_B; wide_B_second_answer])] in
  let two := [("shard_00000.jsonl"%string, [wide_B]);
              ("shard_00001.jsonl"%string, [wide_B_second_answer])] in
  wide_records one = wide_records two /\
  emitted columns_B one = emitted columns_B two.
Proof.
  intros one two.
  assert (E : wide_records one = wide_records two) by reflexivity.
  split; [exact E|].
  apply (emitted_independent_of_sharding columns_B one two E).
Defined.

(** ** Cleaned text *)

Section CleanedText.

Lemma url_sub_fixed_no_match (s : pystr) :
  url_sub_from false s = s ->
  forall before rest, s = before ++ rest -> url_at rest = false.
Proof.
  intros Hfix before. revert s Hfix.
  induction before as [|c before IH]; intros s Hfix rest ->; cbn [app] in *.
  - destruct rest as [|c t]; [reflexivity|].
    destruct (url_at (c :: t)) eqn:E; [|reflexivity].
    cbn [url_sub_from] in Hfix. rewrite E in Hfix.
    apply url_at_head in E as ->. discriminate.
  - cbn [url_sub_from] in Hfix.
    destruct (url_at (c :: before ++ rest)) eqn:E.
    + apply url_at_head in E as ->. discriminate.
    + injection Hfix as Hfix. by eapply IH.
Qed.

Lemma ws_normal_only_spaces b s :
  ws_normal_from b s = true -> Forall (fun c => isspace c = true -> c = SP) s.
Proof.
  revert b. induction s as [|c s IH]; intros b Hn; [constructor|].
  simpl in Hn. destruct (isspace c) eqn:Hc.
  - apply andb_prop in Hn as [Hn Hs]. apply andb_prop in Hn as [_ Hsp].
    apply N.eqb_eq in Hsp. constructor; [done | by eapply IH].
  - constructor; [by rewrite Hc | by eapply IH].
Qed.

Lemma url_sub_nil (s : pystr) : url_sub_from false s = [] <-> s = [].
Proof.
  split; [|by intros ->]. destruct s as [|c t]; [done|]. cbn [url_sub_from].
  destruct (url_at (c :: t)); discriminate.
Qed.

Lemma ws_sub_nil (s : pystr) : ws_sub_from false s = [] <-> s = [].
Proof.
  split; [|by intros ->]. destruct s as [|c t]; [done|]. simpl.
  destruct (isspace c); discriminate.
Qed.

Lemma lstrip_nil (s : pystr) :
  lstrip s = [] <-> Forall (fun c => isspace c = true) s.
Proof.
  induction s as [|c s IH]; simpl; [by split; [constructor|]|].
  destruct (isspace c) eqn:Hc.
  - rewrite IH. split; [by constructor|]. by intros [_ ?]%Forall_cons.
  - split; [done|]. intros [Hc' _]%Forall_cons. congruence.
Qed.

Lemma strip_nil (s : pystr) :
  strip s = [] <-> Forall (fun c => isspace c = true) s.
Proof.
  rewrite <- lstrip_nil. unfold strip.
  destruct (lstrip_head s) as [-> | (c & t & -> & Hc)]; [done|].
  rewrite (rstrip_cons_nonspace _ _ Hc). by split.
Qed.

Lemma replaced_isspace (c : N) :
  isspace (if (if c =? ZWSP then SP else c) =? NBSP then SP
           else if c =? ZWSP then SP else c) = true <->
  isspace c = true \/ c = ZWSP.
Proof.
  destruct (N.eqb_spec c ZWSP) as [->|Hz].
  - split; [by right | reflexivity].
  - destruct (N.eqb_spec c NBSP) as [->|Hn].
    + split; [by left | reflexivity].
    + split; [by left | by intros [|]].
Qed.

Lemma replaced_all_space (s : pystr) :
  Forall (fun c => isspace c = true) (replace NBSP SP (replace ZWSP SP s)) <->
  Forall (fun c => isspace c = true \/ c = ZWSP) s.
Proof.
  unfold replace. rewrite !Forall_fmap.
  apply Forall_iff. intros c. simpl. apply replaced_isspace.
Qed.

Lemma rstrip_idem (s : pystr) : rstrip (rstrip s) = rstrip s.
Proof.
  induction s as [|c t IH]; [reflexivity|]. simpl.
  destruct (rstrip t) as [|d t'] eqn:E.
  - destruct (isspace c) eqn:Hc; simpl; [reflexivity | by rewrite Hc].
  - change (rstrip (c :: d :: t')) with
      (match rstrip (d :: t') with
       | [] => if isspace c then [] else [c]
       | t'' => c :: t''
       end).
    by rewrite IH.
Qed.

Lemma strip_idem (s : pystr) : strip (strip s) = strip s.
Proof.
  unfold strip.
  destruct (lstrip_head s) as [-> | (c & t & -> & Hc)]; [reflexivity|].
  rewrite (rstrip_cons_nonspace _ _ Hc). simpl. rewrite Hc.
  rewrite (rstrip_cons_nonspace _ _ Hc). by rewrite rstrip_idem.
Qed.

End CleanedText.

(** X7 (URL masking).  No raw URL survives cleaning: at no position of a
    cleaned text does the pattern [https?://\S+] match. *)
Theorem cleaned_text_has_no_url (txt before rest : pystr) :
  normalize_text txt = before ++ rest -> url_at rest = false.
Proof.
  intros E. apply (url_sub_fixed_no_match (normalize_text txt)) with before;
    [|exact E].
  rewrite normalize_text_unfold. apply URL_RE_sub_idem.
Qed.

Lemma cleaned_text_has_no_url_witness :
  let txt := lit "see http://a.b/c?d=1 and xhttps://e" in
  normalize_text txt = lit "see <URL> and " ++ lit "x<URL>" /\
  url_at (lit "x<URL>") = false.
Proof.
  intros txt.
  assert (E : normalize_text txt = lit "see <URL> and " ++ lit "x<URL>")
    by reflexivity.
  split; [exact E|].
  apply (cleaned_text_has_no_url txt (lit "see <URL> and ") (lit "x<URL>") E).
Defined.

(** X8.  Cleaned text has no whitespace at either end, every whitespace
    character in it is an ordinary space, and no two of them are adjacent:
    trimming it and collapsing its whitespace both leave it as it is, so it
    holds no tab and no line break. *)
Theorem cleaned_text_whitespace (txt : pystr) :
  strip (normalize_text txt) = normalize_text txt /\
  WS_RE_sub (normalize_text txt) = normalize_text txt /\
  Forall (fun c => isspace c = true -> c = SP) (normalize_text txt).
Proof.
  destruct (normalize_text_shape txt) as [-> | Hn].
  - repeat split. constructor.
  - split; [by apply ws_normal_strip|]. split; [by apply ws_normal_WS_RE_sub|].
    by eapply ws_normal_only_spaces.
Qed.

(** X9.  Cleaning gives the empty text exactly for the texts that consist of
    whitespace and zero-width spaces only (the empty text among them): these
    are the texts [process_shard] counts as empty. *)
Theorem cleaned_text_empty_iff (txt : pystr) :
  normalize_text txt = [] <->
  Forall (fun c => isspace c = true \/ c = ZWSP) txt.
Proof.
  rewrite normalize_text_unfold. unfold URL_RE_sub, ws_normalize, WS_RE_sub.
  rewrite url_sub_nil, ws_sub_nil, strip_nil. apply replaced_all_space.
Qed.

Section CleanedLength.
Local Open Scope nat_scope.

Lemma strip_prefix_Some (p t r : pystr) :
  strip_prefix p t = Some r -> t = p ++ r.
Proof.
  revert t. induction p as [|a p IH]; intros t; simpl.
  - by intros [= ->].
  - destruct t as [|b t]; [done|].
    destruct (N.eqb_spec a b) as [->|]; [|done].
    intros E. by rewrite (IH _ E).
Qed.

Lemma url_sub_in_url_skip (p r : pystr) :
  Forall (fun c => isspace c = false) p ->
  url_sub_from true (p ++ r) = url_sub_from true r.
Proof.
  induction 1 as [|c p Hc _ IH]; [reflexivity|].
  cbn [app url_sub_from]. by rewrite Hc.
Qed.

(** A match spans at least eight characters, none of them whitespace. *)
Lemma url_at_span (c : N) (t : pystr) :
  url_at (c :: t) = true ->
  exists p r, t = p ++ r /\ 7 <= length p /\
              Forall (fun c => isspace c = false) p.
Proof.
  unfold url_at. rewrite after_scheme_cons.
  destruct (104 =? c)%N; [|done].
  destruct (strip_prefix (lit "ttps://") t) as [[|x r]|] eqn:E1.
  - done.
  - intros Hx%negb_true_iff. apply strip_prefix_Some in E1 as ->.
    exists (lit "ttps://" ++ [x]), r. rewrite <- app_assoc.
    split; [reflexivity|]. split; [rewrite length_app; simpl; lia|].
    apply Forall_app. split; [by repeat constructor | by repeat constructor].
  - destruct (strip_prefix (lit "ttp://") t) as [[|x r]|] eqn:E2; [done| |done].
    intros Hx%negb_true_iff. apply strip_prefix_Some in E2 as ->.
    exists (lit "ttp://" ++ [x]), r. rewrite <- app_assoc.
    split; [reflexivity|]. split; [rewrite length_app; simpl; lia|].
    apply Forall_app. split; [by repeat constructor | by repeat constructor].
Qed.

Lemma url_sub_length_le (n : nat) :
  forall s, length s <= n ->
  forall b, length (url_sub_from b s) <= length s.
Proof.
  induction n as [|n IH]; intros s Hs b.
  - destruct s; [by destruct b | simpl in Hs; lia].
  - destruct s as [|c t]; [by destruct b|]. simpl in Hs.
    cbn [url_sub_from]. destruct b.
    + destruct (isspace c); cbn [length].
      * specialize (IH t ltac:(lia) false). lia.
      * specialize (IH t ltac:(lia) true). lia.
    + destruct (url_at (c :: t)) eqn:E.
      * destruct (url_at_span _ _ E) as (p & r & -> & Hp & Hns).
        rewrite url_sub_in_url_skip by done.
        rewrite length_app in Hs.
        specialize (IH r ltac:(lia) true).
        rewrite length_app. cbn [length]. rewrite length_app.
        change (length URL_TOKEN) with 5. lia.
      * cbn [length]. specialize (IH t ltac:(lia) false). lia.
Qed.

Lemma lstrip_length_le (s : pystr) : length (lstrip s) <= length s.
Proof.
  induction s as [|c s IH]; simpl; [lia|]. destruct (isspace c); simpl; lia.
Qed.

Lemma rstrip_length_le (s : pystr) : length (rstrip s) <= length s.
Proof.
  induction s as [|c s IH]; simpl; [lia|].
  destruct (rstrip s); [destruct (isspace c)|]; simpl in *; lia.
Qed.

Lemma ws_sub_length_le (b : bool) (s : pystr) :
  length (ws_sub_from b s) <= length s.
Proof.
  revert b. induction s as [|c s IH]; intros b; simpl; [lia|].
  destruct (isspace c); [destruct b|]; simpl.
  - specialize (IH true). lia.
  - specialize (IH true). lia.
  - specialize (IH false). lia.
Qed.

End CleanedLength.

(** X10.  Cleaning never makes a text longer: a match of the URL pattern
    spans at least eight characters and is replaced by the five of
    [<URL>]. *)
Theorem cleaned_text_not_longer (txt : pystr) :
  (length (normalize_text txt) <= length txt)%nat.
Proof.
  rewrite normalize_text_unfold. unfold URL_RE_sub, ws_normalize, WS_RE_sub, strip.
  etransitivity; [by eapply url_sub_length_le|].
  etransitivity; [apply ws_sub_length_le|].
  etransitivity; [apply rstrip_length_le|].
  etransitivity; [apply lstrip_length_le|].
  unfold replace. by rewrite !length_map.
Qed.

(** ** Sentences of any text *)

Section AnySentences.

Lemma sent_split_no_terminal (s : pystr) :
  Forall (fun c => is_terminal c = false) s ->
  sent_split_from false false s = [s].
Proof.
  induction 1 as [|c s Hc _ IH]; [reflexivity|].
  cbn [sent_split_from]. rewrite !andb_false_r, Hc, IH. reflexivity.
Qed.

End AnySentences.

(** X11.  A text that holds none of the marks [.], [!], [?] is never split:
    unless it is blank, it is one sentence, the trimmed text. *)
Theorem text_without_terminal_is_one_sentence (t : pystr) :
  Forall (fun c => is_terminal c = false) t -> strip t <> [] ->
  fallback_sentences t = [strip t] /\ text_to_sentences t = strip t.
Proof.
  intros Hnt Hne.
  assert (E : fallback_sentences t = [strip t]).
  { unfold fallback_sentences, SENT_RE_split.
    rewrite (sent_split_no_terminal _ Hnt). simpl.
    by rewrite bool_decide_eq_false_2. }
  split; [exact E|]. unfold text_to_sentences. by rewrite E.
Qed.

Lemma text_without_terminal_is_one_sentence_witness :
  let t := lit "  maize and beans  " in
  (Forall (fun c => is_terminal c = false) t /\ strip t <> []) /\
  fallback_sentences t = [lit "maize and beans"].
Proof.
  intros t.
  assert (Hnt : Forall (fun c => is_terminal c = false) t)
    by (repeat constructor).
  assert (Hne : strip t <> []) by discriminate.
  split; [by split|].
  apply (text_without_terminal_is_one_sentence t Hnt Hne).
Defined.

Section WordsOfText.

Lemma words_in_word_nonempty (s : pystr) : words_from true s <> [].
Proof.
  destruct s as [|c t]; [done|]. simpl.
  destruct (isspace c); [done|]. by destruct (words_from true t).
Qed.

Lemma words_nonempty (s : pystr) :
  ends_ok s = true -> s <> [] -> words_from false s <> [].
Proof.
  induction s as [|c t IH]; [done|]. intros Hend _. simpl.
  destruct (isspace c) eqn:Hc.
  - apply IH.
    + simpl in Hend. by destruct t.
    + intros ->. simpl in Hend. by rewrite Hc in Hend.
  - by destruct (words_from true t).
Qed.

(** A whitespace character ends the word before it. *)
Lemma words_app_space (b : bool) (p q : pystr) (c : N) :
  isspace c = true ->
  words_from b (p ++ c :: q) = words_from b p ++ words_from false q.
Proof.
  intros Hc. revert b. induction p as [|x p IH]; intros b; cbn [app words_from].
  - rewrite Hc. by destruct b.
  - destruct (isspace x).
    + rewrite IH. by destruct b.
    + rewrite IH. pose proof (words_in_word_nonempty p).
      by destruct (words_from true p).
Qed.

Lemma words_join_SP (ps : list pystr) :
  words (join SP ps) = concat (List.map words ps).
Proof.
  induction ps as [|p ps IH]; [reflexivity|].
  destruct ps as [|q ps]; [simpl; by rewrite app_nil_r|].
  change (join SP (p :: q :: ps)) with (p ++ SP :: join SP (q :: ps)).
  unfold words in *. rewrite words_app_space by reflexivity.
  rewrite IH. reflexivity.
Qed.

Lemma words_lstrip (s : pystr) : words (lstrip s) = words s.
Proof.
  unfold words. induction s as [|c t IH]; [reflexivity|].
  simpl. destruct (isspace c) eqn:Hc; [exact IH|].
  simpl. by rewrite Hc.
Qed.

Lemma words_from_cons (c : N) (x y : pystr) :
  (forall b, words_from b x = words_from b y) ->
  forall b, words_from b (c :: x) = words_from b (c :: y).
Proof. intros E b. cbn [words_from]. by rewrite !E. Qed.

Lemma words_rstrip (b : bool) (s : pystr) :
  words_from b (rstrip s) = words_from b s.
Proof.
  revert b. induction s as [|c t IH]; intros b; [reflexivity|].
  cbn [rstrip]. destruct (rstrip t) as [|d t'] eqn:E.
  - pose proof (IH true) as IHt. pose proof (IH false) as IHf.
    cbn [words_from] in IHt, IHf.
    destruct (isspace c) eqn:Hc; cbn [words_from]; rewrite Hc.
    + rewrite <- IHf. reflexivity.
    + rewrite <- IHt. reflexivity.
  - by apply words_from_cons.
Qed.

Lemma words_strip (s : pystr) : words (strip s) = words s.
Proof. unfold strip, words. by rewrite words_rstrip, words_lstrip. Qed.

Lemma words_blank (s : pystr) : strip s = [] -> words s = [].
Proof. intros E. by rewrite <- words_strip, E. Qed.

(** Trimming and collapsing whitespace leaves the words, one space apart. *)
Lemma ws_sub_words (s : pystr) :
  ends_ok s = true ->
  ws_sub_from false s = join SP (words_from true s) /\
  ws_sub_from true s = join SP (words_from false s).
Proof.
  induction s as [|c t IH]; intros Hend; [by split|].
  assert (Ht : ends_ok t = true) by (simpl in Hend; by destruct t).
  destruct (IH Ht) as [IH1 IH2]. cbn [ws_sub_from words_from].
  destruct (isspace c) eqn:Hc.
  - assert (Hne : t <> []) by (intros ->; simpl in Hend; by rewrite Hc in Hend).
    split; [|exact IH2]. rewrite IH2.
    pose proof (words_nonempty t Ht Hne).
    by destruct (words_from false t).
  - rewrite IH1. pose proof (words_in_word_nonempty t).
    destruct (words_from true t) as [|w ws]; [done|].
    rewrite !join_cons. by split.
Qed.

Lemma ws_normalize_words (s : pystr) : ws_normalize s = join SP (words s).
Proof.
  rewrite <- words_strip. unfold ws_normalize, WS_RE_sub, strip.
  destruct (lstrip_head s) as [-> | (c & t & -> & Hc)]; [reflexivity|].
  rewrite (rstrip_cons_nonspace _ _ Hc).
  assert (Hend : ends_ok (c :: rstrip t) = true).
  { rewrite <- (rstrip_cons_nonspace _ _ Hc). apply ends_ok_rstrip. }
  destruct (ws_sub_words _ Hend) as [_ E]. unfold words. rewrite <- E.
  cbn [ws_sub_from]. by rewrite Hc.
Qed.

(** The separators of the splitter are whitespace: the words of a text are
    the words of its pieces. *)
Lemma sent_split_words (s : pystr) : forall after_terminal in_sep b,
  (in_sep = true -> b = false) ->
  exists f rest,
    sent_split_from after_terminal in_sep s = f :: rest /\
    words_from b s = words_from b f ++ concat (List.map words rest).
Proof.
  induction s as [|c t IH]; intros a sep b Hsep.
  - exists [], []. split; [reflexivity|]. simpl. by rewrite app_nil_r.
  - cbn [sent_split_from words_from]. destruct (isspace c) eqn:Hc.
    + destruct sep; simpl.
      * rewrite (Hsep eq_refl).
        destruct (IH false true false) as (f & rest & E & Hw); [done|].
        exists f, rest. by split.
      * destruct a.
        -- destruct (IH false true false) as (f & rest & E & Hw); [done|].
           exists [], (f :: rest). rewrite E. split; [reflexivity|].
           rewrite Hw. simpl. by destruct b.
        -- destruct (IH (is_terminal c) false false) as (f & rest & E & Hw);
             [done|].
           exists (c :: f), rest. rewrite E. split; [reflexivity|].
           rewrite Hw. simpl. rewrite Hc. by destruct b.
    + simpl.
      destruct (IH (is_terminal c) false true) as (f & rest & E & Hw); [done|].
      exists (c :: f), rest. rewrite E. split; [reflexivity|].
      rewrite Hw. simpl. rewrite Hc.
      pose proof (words_in_word_nonempty f).
      by destruct (words_from true f).
Qed.

Lemma words_of_sentences (ps : list pystr) :
  concat (List.map words
            (List.map strip
               (List.filter (fun s => negb (bool_decide (strip s = []))) ps))) =
  concat (List.map words ps).
Proof.
  induction ps as [|p ps IH]; [reflexivity|]. simpl.
  case_bool_decide as Hp; simpl.
  - by rewrite IH, (words_blank _ Hp).
  - by rewrite IH, words_strip.
Qed.

Lemma fallback_sentences_words (t : pystr) :
  words (join SP (fallback_sentences t)) = words t.
Proof.
  rewrite words_join_SP. unfold fallback_sentences, SENT_RE_split.
  rewrite words_of_sentences.
  destruct (sent_split_words t false false false) as (f & rest & -> & Hw);
    [done|].
  unfold words at 2. by rewrite Hw.
Qed.

End WordsOfText.

(** X12.  Whatever the text, cleaned or not, the fallback splitter keeps
    every word of it in place: the sentences joined by single spaces are the
    text up to whitespace normalization. *)
Theorem sentences_keep_the_words (t : pystr) :
  ws_normalize (join SP (fallback_sentences t)) = ws_normalize t.
Proof. by rewrite !ws_normalize_words, fallback_sentences_words. Qed.

(** X13.  Whatever the text, no sentence of the fallback splitter is empty
    and none begins or ends with whitespace; there is no sentence at all,
    and the [sents] string is empty, exactly when the text is blank. *)
Theorem fallback_sentences_trimmed (t : pystr) :
  Forall (fun s => s <> [] /\ strip s = s) (fallback_sentences t) /\
  (fallback_sentences t = [] <-> strip t = []) /\
  (text_to_sentences t = [] <-> strip t = []).
Proof.
  assert (Hall : Forall (fun s => s <> [] /\ strip s = s) (fallback_sentences t)).
  { unfold fallback_sentences. apply Forall_forall. intros s Hs.
    apply list_elem_of_In, in_map_iff in Hs as (p & <- & Hp).
    apply filter_In in Hp as [_ Hp]. apply negb_true_iff in Hp.
    apply bool_decide_eq_false in Hp. split; [exact Hp | apply strip_idem]. }
  assert (Hiff : fallback_sentences t = [] <-> strip t = []).
  { split.
    - intros E. pose proof (fallback_sentences_words t) as Hw.
      rewrite E in Hw. simpl in Hw.
      pose proof (ws_normalize_words t) as Hn. rewrite <- Hw in Hn.
      change (join SP (words [])) with (@nil N) in Hn.
      unfold ws_normalize, WS_RE_sub in Hn. by apply (proj1 (ws_sub_nil _)) in Hn.
    - intros Hblank. apply strip_nil in Hblank.
      assert (Hnt : Forall (fun c => is_terminal c = false) t).
      { eapply Forall_impl; [exact Hblank|]. apply isspace_not_terminal. }
      unfold fallback_sentences, SENT_RE_split.
      rewrite (sent_split_no_terminal _ Hnt). simpl.
      apply strip_nil in Hblank. by rewrite Hblank. }
  split; [exact Hall|]. split; [exact Hiff|].
  rewrite <- Hiff. unfold text_to_sentences. split; [|by intros ->].
  destruct (fallback_sentences t) as [|s ss]; [done|].
  apply Forall_cons in Hall as [[Hs _] _].
  destruct ss; simpl; [done|]. by destruct s.
Qed.

(** ** Loading the label map and looking a label up *)

Section LoadedLabels.
Context `{Lowercase}.

(** Entries whose key normalizes to something else leave a key alone. *)
Lemma load_label_map_other (after : list (pystr * scalar)) (k : pystr) :
  Forall (fun kv => lower (strip kv.1) <> k) after ->
  forall acc : gmap pystr scalar,
    foldl (fun acc kv => <[lower (strip kv.1) := kv.2]> acc) acc after !! k =
    acc !! k.
Proof.
  induction 1 as [|kv after Hkv _ IH]; intros acc; simpl; [reflexivity|].
  rewrite IH. by rewrite lookup_insert_ne.
Qed.

Lemma load_label_map_last (before after : list (pystr * scalar))
    (K : pystr) (v : scalar) :
  Forall (fun kv => lower (strip kv.1) <> lower (strip K)) after ->
  load_label_map (before ++ (K, v) :: after) !! lower (strip K) = Some v.
Proof.
  intros Hafter. unfold load_label_map. rewrite foldl_app. simpl.
  rewrite load_label_map_other by done. by rewrite lookup_insert_eq.
Qed.

Lemma load_label_map_absent (raw : list (pystr * scalar)) (k : pystr) :
  Forall (fun kv => lower (strip kv.1) <> k) raw ->
  load_label_map raw !! k = None.
Proof.
  intros Hraw. unfold load_label_map.
  rewrite load_label_map_other by done. apply lookup_empty.
Qed.

End LoadedLabels.

(** X14.  A label that is true resolves to the value of the item of the
    decoded label map whose key has the same trimmed, lowercased form,
    whatever the case and the surrounding whitespace of either; when the
    keys of several items have that form, the last of them in the order of
    the dict gives the value. *)
Theorem loaded_label_resolves `{Lowercase}
    (before after : list (pystr * scalar)) (K : pystr) (v label : scalar) :
  NoDup (before ++ (K, v) :: after).*1 ->
  truthy label = true ->
  lower (strip (str label)) = lower (strip K) ->
  Forall (fun kv => lower (strip kv.1) <> lower (strip K)) after ->
  map_label_to_nllb label (load_label_map (before ++ (K, v) :: after)) = v.
Proof.
  intros _ Ht E Hafter. unfold map_label_to_nllb. rewrite Ht. simpl.
  rewrite E, load_label_map_last by done. reflexivity.
Qed.

Lemma loaded_label_resolves_witness :
  let before := [(lit "Luganda", SStr (lit "old_Latn"))] in
  let after := [(lit "swahili", SStr (lit "swh_Latn"))] in
  let K := lit " LUGANDA" in
  let v := SStr (lit "lug_Latn") in
  let label := SStr (lit "luganda  ") in
  (NoDup (before ++ (K, v) :: after).*1 /\
   truthy label = true /\
   lower (strip (str label)) = lower (strip K) /\
   Forall (fun kv => lower (strip kv.1) <> lower (strip K)) after) /\
  map_label_to_nllb label (load_label_map (before ++ (K, v) :: after)) = v.
Proof.
  intros before after K v label.
  assert (Hnd : NoDup (before ++ (K, v) :: after).*1)
    by (apply (bool_decide_unpack _); vm_compute; exact I).
  assert (Ht : truthy label = true) by reflexivity.
  assert (E : lower (strip (str label)) = lower (strip K)) by reflexivity.
  assert (Hafter : Forall (fun kv => lower (strip kv.1) <> lower (strip K)) after)
    by (repeat constructor; vm_compute; discriminate).
  split; [done|].
  apply (loaded_label_resolves before after K v label Hnd Ht E Hafter).
Defined.

(** X15.  A label is unresolved ([None]) when no key of the decoded label
    map has its trimmed, lowercased form; with an empty map every label
    is. *)
Theorem unlisted_label_unresolved `{Lowercase}
    (raw : list (pystr * scalar)) (label : scalar) :
  Forall (fun kv => lower (strip kv.1) <> lower (strip (str label))) raw ->
  map_label_to_nllb label (load_label_map raw) = SNone.
Proof.
  intros Hraw. unfold map_label_to_nllb.
  destruct (negb (truthy label)); [reflexivity|].
  by rewrite load_label_map_absent.
Qed.

Lemma unlisted_label_unresolved_witness :
  let raw := [(lit "Luganda", SStr (lit "lug_Latn"));
              (lit "swahili", SStr (lit "swh_Latn"))] in
  let label := SStr (lit "Lugand") in
  Forall (fun kv => lower (strip kv.1) <> lower (strip (str label))) raw /\
  map_label_to_nllb label (load_label_map raw) = SNone.
Proof.
  intros raw label.
  assert (Hraw : Forall (fun kv => lower (strip kv.1) <>
                                   lower (strip (str label))) raw)
    by (repeat constructor; vm_compute; discriminate).
  split; [exact Hraw|].
  apply (unlisted_label_unresolved raw label Hraw).
Defined.

(** ** The Normalizer as one stream of lines *)

Section Streaming.
Context `{Lowercase}.
Variable label_map : gmap pystr scalar.
Variable keep_hint : bool.

Local Abbreviation zero :=
  {| fout := []; kept := 0; skipped_empty := 0; skipped_unknown := 0 |}.

Lemma add_state_zero (st : shard_state) : add_state st zero = st.
Proof.
  destruct st. unfold add_state. simpl. rewrite app_nil_r.
  f_equal; lia.
Qed.

Lemma add_state_assoc (a b c : shard_state) :
  add_state (add_state a b) c = add_state a (add_state b c).
Proof.
  unfold add_state. simpl. rewrite app_assoc. f_equal; lia.
Qed.

(** A line does to any state what it does to the initial one. *)
Lemma process_line_shift (st : shard_state) (r : record) :
  process_line label_map keep_hint st r =
  add_state st <$> process_line label_map keep_hint zero r.
Proof.
  unfold process_line. destruct (text_argument r) as [t|]; [simpl|done].
  case_bool_decide.
  { simpl. unfold add_state. simpl. rewrite app_nil_r. do 2 f_equal; lia. }
  destruct (negb (truthy _)); simpl; unfold add_state; simpl.
  - rewrite app_nil_r. do 2 f_equal; lia.
  - do 2 f_equal; lia.
Qed.

Lemma process_lines_shift (st : shard_state) (lines : list record) :
  process_lines label_map keep_hint st lines =
  add_state st <$> process_lines label_map keep_hint zero lines.
Proof.
  revert st. induction lines as [|r lines IH]; intros st; simpl.
  - by rewrite add_state_zero.
  - rewrite (process_line_shift st r).
    destruct (process_line label_map keep_hint zero r) as [d|]; [simpl|done].
    rewrite (IH (add_state st d)), (IH d).
    destruct (process_lines label_map keep_hint zero lines); [simpl|done].
    by rewrite add_state_assoc.
Qed.

(** Reading two shards one after the other is reading their lines in one
    go. *)
Lemma process_shard_app (l1 l2 : list record) :
  process_shard (l1 ++ l2) label_map keep_hint =
  d1 ← process_shard l1 label_map keep_hint;
  d2 ← process_shard l2 label_map keep_hint;
  Some (add_state d1 d2).
Proof.
  unfold process_shard. rewrite process_lines_app.
  destruct (process_lines label_map keep_hint zero l1) as [d1|]; [simpl|done].
  rewrite process_lines_shift.
  by destruct (process_lines label_map keep_hint zero l2).
Qed.

Lemma add_totals_assoc (tot : totals) (a b : shard_state) :
  add_totals (add_totals tot a) b = add_totals tot (add_state a b).
Proof. unfold add_totals. simpl. f_equal; lia. Qed.

(** The loop of [main] over the shards against [process_shard] over all
    their lines. *)
Lemma main_loop_stream (shards : list (string * list record)) :
  forall written tot,
    match process_shard (concat (List.map snd shards)) label_map keep_hint with
    | Some d =>
        exists outs,
          main_loop label_map keep_hint written tot shards =
            Some (written ++ outs, add_totals tot d) /\
          List.map fst outs = List.map fst shards /\
          concat (List.map snd outs) = fout d /\
          Forall2 (fun sh out =>
                     exists st, process_shard sh.2 label_map keep_hint = Some st /\
                                out = (sh.1, fout st)) shards outs
    | None => main_loop label_map keep_hint written tot shards = None
    end.
Proof.
  induction shards as [|sh shards IH]; intros written tot.
  - simpl. exists []. rewrite app_nil_r. repeat split; [|constructor].
    destruct tot. unfold add_totals. simpl. by rewrite !Nat.add_0_r.
  - cbn [List.map concat main_loop]. rewrite process_shard_app.
    destruct (process_shard sh.2 label_map keep_hint) as [d1|] eqn:E1;
      [simpl|done].
    specialize (IH (written ++ [(sh.1, fout d1)]) (add_totals tot d1)).
    destruct (process_shard (concat (List.map snd shards)) label_map keep_hint)
      as [d2|]; simpl; [|exact IH].
    destruct IH as (outs & Hloop & Hn & Hf & Hall).
    exists ((sh.1, fout d1) :: outs).
    split; [|split; [|split]].
    + fold (add_totals tot d1). rewrite Hloop, <- app_assoc.
      by rewrite add_totals_assoc.
    + simpl. by rewrite Hn.
    + simpl. by rewrite Hf.
    + constructor; [|exact Hall]. by exists d1.
Qed.

End Streaming.

(** ** What the Normalizer writes and counts *)

Section WrittenRecords.
Context `{Lowercase}.
Variable label_map : gmap pystr scalar.

Local Abbreviation zero :=
  {| fout := []; kept := 0; skipped_empty := 0; skipped_unknown := 0 |}.

Lemma normalize_text_nil (t : pystr) :
  normalize_text t = [] <-> Forall (fun c => isspace c = true \/ c = ZWSP) t.
Proof.
  rewrite normalize_text_unfold. unfold URL_RE_sub, ws_normalize, WS_RE_sub.
  rewrite url_sub_nil, ws_sub_nil, strip_nil. apply replaced_all_space.
Qed.

Lemma blank_chars (s : pystr) :
  forallb (fun c => isspace c || (c =? ZWSP)) s = true <->
  Forall (fun c => isspace c = true \/ c = ZWSP) s.
Proof.
  induction s as [|c s IH]; simpl; [by split; [constructor|]|].
  rewrite andb_true_iff, Forall_cons, orb_true_iff, N.eqb_eq, IH. done.
Qed.

(** The lines counted as empty are the lines with a blank text. *)
Lemma text_argument_blank (r : record) (t : pystr) :
  text_argument r = Some t ->
  (normalize_text t = [] <-> blank_text r = true).
Proof.
  unfold text_argument, blank_text.
  destruct (get r "text") as [| b | z | f | s] eqn:E.
  - intros [= <-]. by split.
  - destruct (truthy (SBool b)); [done|]. intros [= <-]. by split.
  - destruct (truthy (SInt z)); [done|]. intros [= <-]. by split.
  - destruct (truthy (SFloat f)); [done|]. intros [= <-]. by split.
  - simpl. case_bool_decide as Hs; simpl; intros [= <-].
    + subst s. by split.
    + by rewrite normalize_text_nil, blank_chars.
Qed.

Lemma process_shard_cons (keep_hint : bool) (r : record) (lines : list record) :
  process_shard (r :: lines) label_map keep_hint =
  d1 ← process_line label_map keep_hint zero r;
  d2 ← process_shard lines label_map keep_hint;
  Some (add_state d1 d2).
Proof.
  unfold process_shard. simpl.
  destruct (process_line label_map keep_hint zero r) as [d1|]; [simpl|done].
  rewrite process_lines_shift.
  by destruct (process_lines label_map keep_hint zero lines).
Qed.

(** What one line adds, by the two tests of the loop in their order. *)
Lemma process_line_tally (keep_hint : bool) (r : record) (d : shard_state) :
  process_line label_map keep_hint zero r = Some d ->
  if blank_text r
  then d = {| fout := []; kept := 0; skipped_empty := 1; skipped_unknown := 0 |}
  else if label_known label_map r
  then (exists r', fout d = [r'] /\ normalized_record label_map keep_hint r') /\
       kept d = 1%nat /\ skipped_empty d = 0%nat /\ skipped_unknown d = 0%nat
  else d = {| fout := []; kept := 0; skipped_empty := 0; skipped_unknown := 1 |}.
Proof.
  unfold process_line.
  destruct (text_argument r) as [t|] eqn:Et; [simpl|done].
  pose proof (text_argument_blank r t Et) as Hb.
  case_bool_decide as Hn.
  { rewrite (proj1 Hb Hn). by intros [= <-]. }
  destruct (blank_text r); [exfalso; by apply Hn, Hb|].
  unfold label_known.
  destruct (truthy (map_label_to_nllb (get r "lang_hint") label_map)) eqn:Hl;
    simpl; intros [= <-]; [|reflexivity].
  simpl. split; [|done]. eexists. split; [reflexivity|].
  exists (normalize_text t), (map_label_to_nllb (get r "lang_hint") label_map).
  split; [|split; [exact Hn|split; [apply normalize_text_idem|]]].
  { destruct keep_hint; rewrite ?lookup_delete_ne by done;
      rewrite lookup_insert_ne by done; by rewrite lookup_insert_eq. }
  split.
  { destruct keep_hint; rewrite ?lookup_delete_ne by done;
      by rewrite lookup_insert_eq. }
  split.
  { destruct keep_hint; rewrite ?lookup_delete_ne by done;
      do 2 (rewrite lookup_insert_ne by done); by rewrite lookup_insert_eq. }
  split; [exact Hl|]. split.
  { unfold map_label_to_nllb in *.
    destruct (negb (truthy (get r "lang_hint"))); [done|].
    destruct (label_map !! lower (strip (str (get r "lang_hint")))) as [v|] eqn:E;
      [|done].
    by exists (lower (strip (str (get r "lang_hint")))). }
  destruct keep_hint.
  - unfold get at 1. by do 3 (rewrite lookup_insert_ne by done).
  - apply lookup_delete_eq.
Qed.


Lemma process_line_without_hint (st : shard_state) (r : record) :
  process_line label_map false (without_hint st) r =
  without_hint <$> process_line label_map true st r.
Proof.
  unfold process_line. destruct (text_argument r) as [t|]; [simpl|done].
  case_bool_decide; [done|].
  destruct (negb (truthy _)); [done|]. simpl.
  unfold without_hint. simpl. by rewrite fmap_app.
Qed.

Lemma process_lines_without_hint (st : shard_state) (lines : list record) :
  process_lines label_map false (without_hint st) lines =
  without_hint <$> process_lines label_map true st lines.
Proof.
  revert st. induction lines as [|r lines IH]; intros st; simpl; [done|].
  rewrite process_line_without_hint.
  destruct (process_line label_map true st r) as [st1|]; [simpl|done].
  apply IH.
Qed.

Lemma process_shard_written (keep_hint : bool) (lines : list record) :
  forall st, process_shard lines label_map keep_hint = Some st ->
  Forall (normalized_record label_map keep_hint) (fout st) /\
  kept st = length (fout st) /\
  skipped_empty st = length (List.filter blank_text lines) /\
  skipped_unknown st =
    length (List.filter (fun r => negb (blank_text r) &&
                                  negb (label_known label_map r)) lines) /\
  kept st =
    length (List.filter (fun r => negb (blank_text r) &&
                                  label_known label_map r) lines).
Proof.
  induction lines as [|r lines IH]; intros st.
  - intros [= <-]. simpl. by repeat split.
  - rewrite process_shard_cons.
    destruct (process_line label_map keep_hint zero r) as [d1|] eqn:E1;
      [simpl|done].
    destruct (process_shard lines label_map keep_hint) as [d2|]; [simpl|done].
    intros [= <-]. destruct (IH d2 eq_refl) as (Hf & Hk & He & Hu & Hk').
    apply process_line_tally in E1. simpl.
    destruct (blank_text r); [subst d1; simpl; repeat split; auto; lia|].
    destruct (label_known label_map r); simpl.
    + destruct E1 as ((r' & -> & Hr') & -> & -> & ->). simpl.
      repeat split; auto; lia.
    + subst d1. simpl. repeat split; auto; lia.
Qed.


Lemma text_argument_raises (r : record) :
  truthy (get r "text") = true -> (forall s, get r "text" <> SStr s) ->
  text_argument r = None.
Proof.
  unfold text_argument. intros -> Hs.
  destruct (get r "text") as [| | | |s]; try done. by destruct (Hs s).
Qed.

Lemma process_shard_raises (keep_hint : bool) (before after : list record)
    (r : record) :
  truthy (get r "text") = true -> (forall s, get r "text" <> SStr s) ->
  process_shard (before ++ r :: after) label_map keep_hint = None.
Proof.
  intros Ht Hs. rewrite process_shard_app, process_shard_cons.
  unfold process_line. rewrite (text_argument_raises r Ht Hs). simpl.
  by destruct (process_shard before label_map keep_hint).
Qed.

End WrittenRecords.

(** X16.  Every record [process_shard] writes is normalized: its [text] is
    a non-empty string that cleaning leaves as it is, its [sents] is the
    sentence split of that text, its [lang] is a true value of the label
    map; with [--keep-hint] its [lang_hint] still resolves to that value,
    without it the record has no [lang_hint].  [kept] is the number of
    records written. *)
Theorem written_records_normalized `{Lowercase} (lines : list record)
    (label_map : gmap pystr scalar) (keep_hint : bool) (st : shard_state) :
  process_shard lines label_map keep_hint = Some st ->
  Forall (normalized_record label_map keep_hint) (fout st) /\
  kept st = length (fout st).
Proof.
  intros Hst.
  destruct (process_shard_written label_map keep_hint lines st Hst)
    as (Hf & Hk & _).
  by split.
Qed.

Lemma written_records_normalized_witness :
  let lines := [post_C; post_blank; post_D] in
  let M := load_label_map luganda_map_raw in
  let st := {| fout := [post_C_normalized]; kept := 1;
               skipped_empty := 1; skipped_unknown := 1 |} in
  process_shard lines M false = Some st /\
  Forall (normalized_record M false) [post_C_normalized].
Proof.
  intros lines M st.
  assert (Hst : process_shard lines M false = Some st)
    by (vm_compute; reflexivity).
  split; [exact Hst|].
  exact (proj1 (written_records_normalized lines M false st Hst)).
Defined.

(** X17.  The two tests of the loop are made in this order: a line whose
    text is false, or made of whitespace and zero-width spaces only, is
    counted as empty whatever its label; of the other lines, those whose
    [lang_hint] does not resolve to a true value are counted as of unknown
    label, and the rest are kept. *)
Theorem counters_by_kind_of_line `{Lowercase} (lines : list record)
    (label_map : gmap pystr scalar) (keep_hint : bool) (st : shard_state) :
  process_shard lines label_map keep_hint = Some st ->
  skipped_empty st = length (List.filter blank_text lines) /\
  skipped_unknown st =
    length (List.filter (fun r => negb (blank_text r) &&
                                  negb (label_known label_map r)) lines) /\
  kept st =
    length (List.filter (fun r => negb (blank_text r) &&
                                  label_known label_map r) lines).
Proof.
  intros Hst.
  destruct (process_shard_written label_map keep_hint lines st Hst)
    as (_ & _ & He & Hu & Hk).
  by repeat split.
Qed.

Lemma counters_by_kind_of_line_witness :
  let lines := [post_blank; post_D; post_C; post_blank] in
  let M := load_label_map luganda_map_raw in
  let st := {| fout := [post_C_normalized]; kept := 1;
               skipped_empty := 2; skipped_unknown := 1 |} in
  process_shard lines M false = Some st /\
  List.filter blank_text lines = [post_blank; post_blank] /\
  skipped_empty st = length (List.filter blank_text lines).
Proof.
  intros lines M st.
  assert (Hst : process_shard lines M false = Some st)
    by (vm_compute; reflexivity).
  split; [exact Hst|]. split; [vm_compute; reflexivity|].
  exact (proj1 (counters_by_kind_of_line lines M false st Hst)).
Defined.



(** X19.  The flag [--keep-hint] changes nothing but the [lang_hint] of the
    records written: for a shard that is processed to its end with the flag,
    the shard is processed to its end without it, the three counters are the
    same, and the records written without it are the records written with
    it, each with its [lang_hint] removed. *)
Theorem keep_hint_only_keeps_the_hint `{Lowercase} (lines : list record)
    (label_map : gmap pystr scalar) (st : shard_state) :
  process_shard lines label_map true = Some st ->
  process_shard lines label_map false =
  Some {| fout := delete "lang_hint" <$> fout st;
          kept := kept st;
          skipped_empty := skipped_empty st;
          skipped_unknown := skipped_unknown st |}.
Proof.
  unfold process_shard. intros Hst.
  pose proof (process_lines_without_hint label_map
                {| fout := []; kept := 0; skipped_empty := 0;
                   skipped_unknown := 0 |} lines) as Hw.
  rewrite Hst in Hw. exact Hw.
Qed.

Lemma keep_hint_only_keeps_the_hint_witness :
  let lines := [post_C; post_blank; post_D] in
  let M := load_label_map luganda_map_raw in
  let st := {| fout := [<["lang_hint" := SStr (lit " Luganda ")]> post_C_normalized];
               kept := 1; skipped_empty := 1; skipped_unknown := 1 |} in
  process_shard lines M true = Some st /\
  process_shard lines M false =
  Some {| fout := [post_C_normalized]; kept := 1;
          skipped_empty := 1; skipped_unknown := 1 |}.
Proof.
  intros lines M st.
  assert (Hst : process_shard lines M true = Some st)
    by (vm_compute; reflexivity).
  split; [exact Hst|].
  rewrite (keep_hint_only_keeps_the_hint lines M st Hst).
  vm_compute. reflexivity.
Defined.

(** X20.  A line whose [text] is a true value that is not a string (a
    number other than zero, [true]) makes [process_shard] raise, wherever the
    line stands in the shard, and [main] with it, wherever the shard stands
    among the shards. *)
Theorem non_string_text_raises `{Lowercase} (lang_map : list (pystr * scalar))
    (keep_hint : bool) (before after : list record) (r : record)
    (name : string) (shards_before shards_after : list (string * list record)) :
  truthy (get r "text") = true ->
  (forall s, get r "text" <> SStr s) ->
  process_shard (before ++ r :: after) (load_label_map lang_map) keep_hint = None /\
  main lang_map
       (shards_before ++ (name, before ++ r :: after) :: shards_after)
       keep_hint = Raised.
Proof.
  intros Ht Hs. split; [by apply process_shard_raises|].
  pose proof (main_loop_stream (load_label_map lang_map) keep_hint
                (shards_before ++ (name, before ++ r :: after) :: shards_after)
                [] {| total_kept := 0; total_skipped_empty := 0;
                      total_skipped_unknown_label := 0 |}) as Hloop.
  rewrite map_app, concat_app in Hloop. cbn [List.map concat snd] in Hloop.
  rewrite <- !app_assoc in Hloop. cbn [app] in Hloop.
  rewrite app_assoc, process_shard_raises in Hloop by done.
  unfold main. rewrite Hloop. by destruct shards_before.
Qed.

Lemma non_string_text_raises_witness :
  let r : record := {[ "text" := SInt 5 ]} in
  (truthy (get r "text") = true /\ (forall s, get r "text" <> SStr s)) /\
  process_shard ([post_C] ++ r :: [post_D]) (load_label_map luganda_map_raw)
    false = None.
Proof.
  intros r.
  assert (Ht : truthy (get r "text") = true) by reflexivity.
  assert (Hs : forall s, get r "text" <> SStr s) by (intros s; discriminate).
  split; [done|].
  exact (proj1 (non_string_text_raises luganda_map_raw false [post_C] [post_D]
                  r "shard_00000.jsonl" [] [] Ht Hs)).
Defined.

(** ** The run of the Normalizer *)

Section WholeRun.
Context `{Lowercase}.

Lemma process_shard_sum (label_map : gmap pystr scalar) (keep_hint : bool)
    (lines : list record) (st : shard_state) :
  process_shard lines label_map keep_hint = Some st ->
  (kept st + skipped_empty st + skipped_unknown st = length lines)%nat.
Proof.
  intros Hst. destruct (process_lines_sum _ _ _ _ _ Hst) as [Hsum _].
  simpl in Hsum. lia.
Qed.

Lemma main_cons (lang_map : list (pystr * scalar)) (keep_hint : bool)
    (sh : string * list record) (shards : list (string * list record)) :
  main lang_map (sh :: shards) keep_hint =
  match main_loop (load_label_map lang_map) keep_hint []
          {| total_kept := 0; total_skipped_empty := 0;
             total_skipped_unknown_label := 0 |} (sh :: shards) with
  | Some (written, tot) => Finished written tot
  | None => Raised
  end.
Proof. reflexivity. Qed.



End WholeRun.

(** X21.  [main] treats the shards as one stream of lines: it raises
    exactly when [process_shard] would raise on the lines of all the shards
    taken together in order; otherwise the output files have the names of
    the shards in the same order, hold between them the records
    [process_shard] would write for that one stream, in the same order, and
    the totals printed are its three counters. *)
Theorem main_reads_one_stream `{Lowercase} (lang_map : list (pystr * scalar))
    (sh : string * list record) (shards : list (string * list record))
    (keep_hint : bool) :
  match process_shard (concat (List.map snd (sh :: shards)))
          (load_label_map lang_map) keep_hint with
  | Some st =>
      exists written,
        main lang_map (sh :: shards) keep_hint =
          Finished written
            {| total_kept := kept st;
               total_skipped_empty := skipped_empty st;
               total_skipped_unknown_label := skipped_unknown st |} /\
        List.map fst written = List.map fst (sh :: shards) /\
        concat (List.map snd written) = fout st
  | None => main lang_map (sh :: shards) keep_hint = Raised
  end.
Proof.
  rewrite main_cons.
  pose proof (main_loop_stream (load_label_map lang_map) keep_hint
                (sh :: shards) []
                {| total_kept := 0; total_skipped_empty := 0;
                   total_skipped_unknown_label := 0 |}) as Hloop.
  destruct (process_shard (concat (List.map snd (sh :: shards)))
              (load_label_map lang_map) keep_hint) as [st|].
  - destruct Hloop as (outs & -> & Hn & Hf & _). exists outs.
    by repeat split.
  - by rewrite Hloop.
Qed.

(** X22.  When [main] finishes, there is one output file per shard, under
    the same name and in the same order, holding what [process_shard] writes
    for that shard alone; the three totals add up to the number of lines of
    all the shards, and the total kept is the number of records written. *)
Theorem main_accounting `{Lowercase} (lang_map : list (pystr * scalar))
    (shards written : list (string * list record)) (keep_hint : bool)
    (tot : totals) :
  main lang_map shards keep_hint = Finished written tot ->
  Forall2 (fun sh out =>
             exists st,
               process_shard sh.2 (load_label_map lang_map) keep_hint = Some st /\
               out = (sh.1, fout st))
          shards written /\
  (total_kept tot + total_skipped_empty tot + total_skipped_unknown_label tot =
   length (concat (List.map snd shards)))%nat /\
  total_kept tot = length (concat (List.map snd written)).
Proof.
  destruct shards as [|sh shards]; [done|]. rewrite main_cons.
  pose proof (main_loop_stream (load_label_map lang_map) keep_hint
                (sh :: shards) []
                {| total_kept := 0; total_skipped_empty := 0;
                   total_skipped_unknown_label := 0 |}) as Hloop.
  destruct (process_shard (concat (List.map snd (sh :: shards)))
              (load_label_map lang_map) keep_hint) as [st|] eqn:Hst.
  - destruct Hloop as (outs & -> & _ & Hf & Hall). intros [= <- <-].
    split; [exact Hall|]. simpl.
    pose proof (process_shard_sum _ _ _ _ Hst) as Hsum.
    destruct (process_shard_written _ _ _ _ Hst) as (_ & Hk & _).
    simpl in Hsum, Hf. rewrite Hf. lia.
  - by rewrite Hloop.
Qed.

Lemma main_accounting_witness :
  let shards := [("shard_00000.jsonl"%string, [post_C; post_blank]);
                 ("shard_00001.jsonl"%string, [post_D])] in
  let written := [("shard_00000.jsonl"%string, [post_C_normalized]);
                  ("shard_00001.jsonl"%string, [])] in
  let tot := {| total_kept := 1; total_skipped_empty := 1;
                total_skipped_unknown_label := 1 |} in
  main luganda_map_raw shards false = Finished written tot /\
  (total_kept tot + total_skipped_empty tot + total_skipped_unknown_label tot =
   length (concat (List.map snd shards)))%nat.
Proof.
  intros shards written tot.
  assert (Hrun : main luganda_map_raw shards false = Finished written tot)
    by (vm_compute; reflexivity).
  split; [exact Hrun|].
  exact (proj1 (proj2 (main_accounting luganda_map_raw shards written false
                         tot Hrun))).
Defined.


(** ** The texts cleaning leaves alone *)

Section FixedPoints.

Lemma url_sub_no_match (s : pystr) :
  (forall before rest, s = before ++ rest -> url_at rest = false) ->
  url_sub_from false s = s.
Proof.
  induction s as [|c t IH]; intros Hno; [reflexivity|].
  cbn [url_sub_from]. rewrite (Hno [] (c :: t) eq_refl).
  f_equal. apply IH. intros before rest ->.
  by apply (Hno (c :: before) rest).
Qed.

End FixedPoints.

(** X24.  The texts [normalize_text] returns unchanged are exactly the
    texts that hold no zero-width space and no no-break space, have no
    whitespace to trim or to collapse, and hold no match of the URL pattern;
    these are also exactly the texts it returns. *)
Theorem cleaning_fixed_points (t : pystr) :
  normalize_text t = t <->
  Forall visible t /\ strip t = t /\ WS_RE_sub t = t /\
  forall before rest, t = before ++ rest -> url_at rest = false.
Proof.
  split.
  - intros E. rewrite <- E. split; [apply normalize_text_visible|].
    assert (Hs : strip (normalize_text t) = normalize_text t /\
                 WS_RE_sub (normalize_text t) = normalize_text t).
    { destruct (normalize_text_shape t) as [-> | Hn]; [by split|].
      split; [by apply ws_normal_strip | by apply ws_normal_WS_RE_sub]. }
    destruct Hs as [Hs Hw]. split; [exact Hs|]. split; [exact Hw|].
    apply url_sub_fixed_no_match.
    rewrite normalize_text_unfold. apply URL_RE_sub_idem.
  - intros (Hv & Hs & Hw & Hu). rewrite normalize_text_unfold.
    rewrite (replace_absent ZWSP SP t), (replace_absent NBSP SP t).
    + unfold ws_normalize. rewrite Hs, Hw. by apply url_sub_no_match.
    + eapply Forall_impl; [exact Hv|]. by intros c [_ ?].
    + eapply Forall_impl; [exact Hv|]. by intros c [? _].
Qed.

(** ** Where the fallback splitter cuts *)

Section SentenceEnds.

Lemma is_terminal_not_space (c : N) : is_terminal c = true -> isspace c = false.
Proof.
  intros Hc. destruct (isspace c) eqn:E; [|reflexivity].
  apply isspace_not_terminal in E. congruence.
Qed.

Lemma last_lstrip (p : pystr) (c : N) :
  last p = Some c -> isspace c = false -> last (lstrip p) = Some c.
Proof.
  intros Hl Hc. induction p as [|x p IH]; [done|]. simpl.
  destruct (isspace x) eqn:Hx; [|exact Hl].
  destruct p as [|y p]; [simpl in Hl; congruence|]. by apply IH.
Qed.

Lemma rstrip_last (p : pystr) (c : N) :
  last p = Some c -> isspace c = false -> rstrip p = p.
Proof.
  intros Hl Hc. induction p as [|x p IH]; [done|].
  destruct p as [|y p].
  - simpl in Hl. injection Hl as ->. simpl. by rewrite Hc.
  - change (rstrip (x :: y :: p)) with
      (match rstrip (y :: p) with
       | [] => if isspace x then [] else [x]
       | t' => x :: t'
       end).
    by rewrite IH.
Qed.

(** A piece that ends in a mark is a sentence that ends in that mark. *)
Lemma strip_ends_in_terminal (p : pystr) :
  ends_in_terminal false p = true ->
  strip p <> [] /\ ends_in_terminal false (strip p) = true.
Proof.
  unfold ends_in_terminal. destruct (last p) as [c|] eqn:Hl; [|done].
  intros Hc. pose proof (is_terminal_not_space c Hc) as Hs.
  pose proof (last_lstrip p c Hl Hs) as Hl'.
  unfold strip. rewrite (rstrip_last _ c Hl' Hs), Hl'. split; [|exact Hc].
  intros E. by rewrite E in Hl'.
Qed.

(** Every piece of the split but the last ends in a mark. *)
Lemma sent_split_ends (s : pystr) : forall after_terminal in_sep,
  (in_sep = true -> after_terminal = false) ->
  exists init lastp,
    sent_split_from after_terminal in_sep s = init ++ [lastp] /\
    match init with
    | [] => True
    | f :: rest =>
        ends_in_terminal after_terminal f = true /\
        Forall (fun p => ends_in_terminal false p = true) rest
    end.
Proof.
  induction s as [|c t IH]; intros a sep Hsep.
  - by exists [], [].
  - cbn [sent_split_from]. destruct (isspace c && sep) eqn:E1.
    { apply andb_true_iff in E1 as [_ ->]. rewrite (Hsep eq_refl).
      by apply IH. }
    destruct (isspace c && a) eqn:E2.
    { apply andb_true_iff in E2 as [_ ->].
      destruct (IH false true) as (init & lastp & -> & Hinit); [done|].
      exists ([] :: init), lastp. split; [reflexivity|]. split; [reflexivity|].
      destruct init as [|f rest]; [constructor|].
      destruct Hinit as [Hf Hrest]. by constructor. }
    destruct (IH (is_terminal c) false) as (init & lastp & -> & Hinit); [done|].
    destruct init as [|f rest].
    + by exists [], (c :: lastp).
    + exists ((c :: f) :: rest), lastp. split; [reflexivity|].
      destruct Hinit as [Hf Hrest]. split; [|exact Hrest].
      unfold ends_in_terminal in *. destruct f as [|x f]; [exact Hf|].
      rewrite last_cons_cons.
      destruct (last (x :: f)) eqn:El; [exact Hf|]. by apply last_None in El.
Qed.

Lemma sentences_of_pieces (init : list pystr) (lastp : pystr) :
  Forall (fun p => ends_in_terminal false p = true) init ->
  List.map strip
    (List.filter (fun s => negb (bool_decide (strip s = []))) (init ++ [lastp])) =
  List.map strip init ++
  (if bool_decide (strip lastp = []) then [] else [strip lastp]) /\
  Forall (fun p => ends_in_terminal false p = true) (List.map strip init).
Proof.
  induction 1 as [|p init Hp _ [IH1 IH2]]; simpl.
  - split; [by case_bool_decide | constructor].
  - destruct (strip_ends_in_terminal p Hp) as [Hne He].
    rewrite (bool_decide_eq_false_2 _ Hne). simpl. rewrite IH1.
    split; [reflexivity | by constructor].
Qed.

End SentenceEnds.

(** X25.  The fallback splitter cuts only after a mark: whatever the text,
    every sentence but the last ends in [.], [!] or [?]. *)
Theorem sentences_end_in_marks (t : pystr) (ss : list pystr) (s : pystr) :
  fallback_sentences t = ss ++ [s] ->
  Forall (fun x => ends_in_terminal false x = true) ss.
Proof.
  unfold fallback_sentences, SENT_RE_split.
  destruct (sent_split_ends t false false) as (init & lastp & -> & Hinit);
    [done|].
  assert (Hall : Forall (fun p => ends_in_terminal false p = true) init).
  { destruct init as [|f rest]; [constructor|]. destruct Hinit. by constructor. }
  destruct (sentences_of_pieces init lastp Hall) as [-> Hs].
  case_bool_decide.
  - rewrite app_nil_r. intros E. rewrite E in Hs.
    by apply Forall_app in Hs as [? _].
  - intros [<- _]%app_inj_tail. exact Hs.
Qed.

Lemma sentences_end_in_marks_witness :
  let t := lit "Is it ripe?  Yes. pick it now" in
  let ss := [lit "Is it ripe?"; lit "Yes."] in
  let s := lit "pick it now" in
  fallback_sentences t = ss ++ [s] /\
  Forall (fun x => ends_in_terminal false x = true) ss.
Proof.
  intros t ss s.
  assert (E : fallback_sentences t = ss ++ [s]) by reflexivity.
  split; [exact E|].
  exact (sentences_end_in_marks t ss s E).
Defined.

(** ** The order in which later stages read the shards *)

Section SortedNames.
Local Open Scope nat_scope.

Lemma shard_name_lu (n : nat) :
  shard_name n = name_lu (DecimalNat.Unsigned.to_lu n).
Proof.
  unfold shard_name, pad5, name_lu.
  by rewrite DecimalNat.Unsigned.to_uint_alt.
Qed.

Lemma ascending_spec (fuel : nat) : forall n,
  ascending fuel (DecimalNat.Unsigned.to_lu n) = true ->
  forall k, k < fuel ->
    String.ltb (shard_name (n + k)) (shard_name (S (n + k))) = true.
Proof.
  induction fuel as [|fuel IH]; intros n Hasc k Hk; [lia|].
  cbn [ascending] in Hasc. apply andb_true_iff in Hasc as [H1 H2].
  rewrite <- DecimalNat.Unsigned.to_lu_succ in H1, H2.
  destruct k as [|k].
  - rewrite Nat.add_0_r, !shard_name_lu. exact H1.
  - replace (n + S k) with (S n + k) by lia. apply IH; [exact H2 | lia].
Qed.

Lemma ascending_to_99999 :
  ascending (N.to_nat 99999) (DecimalNat.Unsigned.to_lu 0) = true.
Proof. vm_compute. reflexivity. Qed.

Lemma string_compare_trans (s1 : string) : forall s2 s3,
  String.compare s1 s2 = Lt -> String.compare s2 s3 = Lt ->
  String.compare s1 s3 = Lt.
Proof.
  induction s1 as [|a s1 IH]; intros [|b s2] [|c s3]; simpl; try done.
  destruct (Ascii.compare a b) eqn:Eab; [| |done].
  - apply Ascii.compare_eq_iff in Eab as ->.
    destruct (Ascii.compare b c); [apply IH | done | done].
  - intros _. destruct (Ascii.compare b c) eqn:Ebc; [| |done].
    + apply Ascii.compare_eq_iff in Ebc as <-. by rewrite Eab.
    + intros _. unfold Ascii.compare in *.
      rewrite N.compare_lt_iff in Eab, Ebc.
      assert (Hac : (N_of_ascii a < N_of_ascii c)%N) by lia.
      rewrite <- N.compare_lt_iff in Hac. by rewrite Hac.
Qed.

Lemma string_ltb_trans (s1 s2 s3 : string) :
  String.ltb s1 s2 = true -> String.ltb s2 s3 = true -> String.ltb s1 s3 = true.
Proof.
  unfold String.ltb. intros H1 H2.
  destruct (String.compare s1 s2) eqn:E1; try done.
  destruct (String.compare s2 s3) eqn:E2; try done.
  by rewrite (string_compare_trans _ _ _ E1 E2).
Qed.

Lemma shard_name_lt (i j : nat) :
  i < j -> (N.of_nat j < 100000)%N ->
  String.ltb (shard_name i) (shard_name j) = true.
Proof.
  intros Hij Hj. induction j as [|j IH]; [lia|].
  assert (Hstep : String.ltb (shard_name j) (shard_name (S j)) = true).
  { apply (ascending_spec _ 0 ascending_to_99999 j).
    lia. }
  destruct (decide (i = j)) as [->|Hne]; [exact Hstep|].
  eapply string_ltb_trans; [|exact Hstep]. apply IH; lia.
Qed.

Lemma write_shards_lookup (reader : list (list record)) (i : nat)
    (f : string * list record) :
  (write_shards 0 reader).1 !! i = Some f ->
  f.1 = shard_name i /\ i < length reader.
Proof.
  intros Hf. destruct (write_shards_spec 0 reader) as (_ & Hn & _).
  assert (Hi : (List.map fst (write_shards 0 reader).1) !! i = Some f.1).
  { change (List.map fst ?l) with (fst <$> l). by rewrite list_lookup_fmap, Hf. }
  rewrite Hn in Hi. change (List.map shard_name ?l) with (shard_name <$> l) in Hi.
  rewrite list_lookup_fmap in Hi.
  destruct (seq 0 (length reader) !! i) as [k|] eqn:Ek; [|done].
  apply lookup_seq in Ek as [-> Hlt]. simpl in Hi. injection Hi as ->.
  by split.
Qed.

End SortedNames.

(** X26.  Up to 100000 batches, the shard names are in the order of the
    batches: a file written earlier has the smaller name, in the order of
    strings by which the later stages sort the files they read.  The bound
    is the width of the index: [shard_100000.jsonl] sorts before
    [shard_10001.jsonl]. *)
Theorem shards_sort_in_write_order (reader : list (list record)) :
  (N.of_nat (length reader) <= 100000)%N ->
  (forall i j fi fj,
     (write_shards 0 reader).1 !! i = Some fi ->
     (write_shards 0 reader).1 !! j = Some fj ->
     (i < j)%nat ->
     String.ltb fi.1 fj.1 = true) /\
  String.ltb (shard_name (N.to_nat 100000)) (shard_name (N.to_nat 10001)) = true.
Proof.
  intros Hlen. split; [|vm_compute; reflexivity].
  intros i j fi fj Hi Hj Hij.
  apply write_shards_lookup in Hi as [-> _].
  apply write_shards_lookup in Hj as [-> Hj].
  apply shard_name_lt; lia.
Qed.

Lemma shards_sort_in_write_order_witness :
  let reader : list (list record) := [[wide_B]; [wide_B_second_answer]; []] in
  (N.of_nat (length reader) <= 100000)%N /\
  String.ltb "shard_00000.jsonl" "shard_00002.jsonl" = true.
Proof.
  intros reader.
  assert (Hlen : (N.of_nat (length reader) <= 100000)%N) by (simpl; lia).
  split; [exact Hlen|].
  exact (proj1 (shards_sort_in_write_order reader Hlen) 0%nat 2%nat
           ("shard_00000.jsonl"%string, [wide_B])
           ("shard_00002.jsonl"%string, []) eq_refl eq_refl
           ltac:(lia)).
Defined.

(** ** From the Reshaper's posts to the Normalizer's records *)

Section EndToEnd.
Context `{Lowercase}.
Variable label_map : gmap pystr scalar.
Variable keep_hint : bool.





End EndToEnd.



(** ** Cleaning, word by word *)

Section WordByWord.

Lemma strip_prefix_app_space (p : pystr) (rest : pystr) :
  Forall (fun c => isspace c = false) p ->
  forall w, strip_prefix p (w ++ SP :: rest) =
            (fun r => r ++ SP :: rest) <$> strip_prefix p w.
Proof.
  induction 1 as [|a p Ha _ IH]; intros w; [reflexivity|].
  destruct w as [|x w]; cbn [app strip_prefix].
  - destruct (N.eqb_spec a SP) as [->|]; [|reflexivity].
    by rewrite isspace_SP in Ha.
  - destruct (a =? x); [apply IH | reflexivity].
Qed.

(** Whether the pattern matches at the head of a word does not depend on
    what follows the space after the word. *)
Lemma url_at_app_space (w rest : pystr) :
  url_at (w ++ SP :: rest) = url_at w.
Proof.
  unfold url_at, after_scheme.
  rewrite !strip_prefix_app_space by (by repeat constructor).
  destruct (strip_prefix (lit "https://") w) as [[|c r]|];
    cbn [fmap option_fmap option_map app];
    [by rewrite isspace_SP | reflexivity |].
  destruct (strip_prefix (lit "http://") w) as [[|c r]|];
    cbn [fmap option_fmap option_map app];
    [by rewrite isspace_SP | reflexivity | reflexivity].
Qed.

Lemma url_sub_app_space (w rest : pystr) : forall b,
  url_sub_from b (w ++ SP :: rest) =
  url_sub_from b w ++ SP :: url_sub_from false rest.
Proof.
  induction w as [|x w IH]; intros b.
  - cbn [app url_sub_from]. rewrite isspace_SP.
    rewrite (url_at_space SP rest isspace_SP). by destruct b.
  - change ((x :: w) ++ SP :: rest) with (x :: (w ++ SP :: rest)).
    cbn [url_sub_from].
    change (x :: (w ++ SP :: rest)) with ((x :: w) ++ SP :: rest).
    rewrite url_at_app_space, !IH.
    destruct b; [by destruct (isspace x)|].
    destruct (url_at (x :: w)); [|reflexivity].
    by rewrite <- app_assoc.
Qed.

(** Masking the URLs of words joined by spaces is masking them in each
    word. *)
Lemma url_sub_join (ws : list pystr) :
  URL_RE_sub (join SP ws) = join SP (List.map URL_RE_sub ws).
Proof.
  unfold URL_RE_sub. induction ws as [|w ws IH]; [reflexivity|].
  destruct ws as [|w' ws]; [reflexivity|].
  change (join SP (w :: w' :: ws)) with (w ++ SP :: join SP (w' :: ws)).
  rewrite url_sub_app_space, IH. reflexivity.
Qed.

End WordByWord.

(** X28.  Cleaning works word by word: [normalize_text] returns the words of
    the text (its maximal runs of characters that are not whitespace, after
    the zero-width and the no-break spaces are replaced by spaces), each with
    its URLs masked, joined by single spaces.  No word is dropped, merged
    with another or moved. *)
Theorem cleaning_word_by_word (txt : pystr) :
  normalize_text txt =
  join SP (List.map URL_RE_sub (words (replace NBSP SP (replace ZWSP SP txt)))).
Proof.
  by rewrite normalize_text_unfold, ws_normalize_words, url_sub_join.
Qed.
